(** * Express support utilities and the template [View]: a shallow embedding

    The development follows the two source files of the repository:

    - the utilities ([acceptParams], [normalizeType], [compileETag],
      [compileQueryParser], [compileTrust], [createETagGenerator],
      [parseExtendedQueryString]);
    - [view.ts] (the [View] constructor, [lookup], [resolve], [tryStat] and
      [render]).

    JavaScript strings are sequences of 8-bit code units ([string]); integer
    valued JavaScript numbers (string indices) are [Z]; a thrown exception is
    the [Throw] constructor of [res]; a plain object used as a dictionary is a
    [gmap string _] of its own properties.  Library functions that are not part of the repository
    (node's [path], [fs], [require], the [etag], [qs], [querystring],
    [mime-types] and [proxy-addr] packages, [parseFloat]) are parameters,
    bundled in type classes.  Calls of [debug] only log and are left out. *)

From Stdlib Require Import ZArith Ascii String List Lia Bool.
From stdpp Require Import base option gmap strings list.
Import ListNotations.

Local Open Scope string_scope.
Local Open Scope Z_scope.

(** ** Exceptions and results *)

Inductive exn : Type :=
| Error (msg : string)
| TypeError (msg : string).

Inductive res (A : Type) : Type :=
| Ret (a : A)
| Throw (e : exn).
Arguments Ret {A} a.
Arguments Throw {A} e.

Definition is_TypeError {A} (r : res A) : bool :=
  match r with Throw (TypeError _) => true | _ => false end.

Definition throws {A} (r : res A) : bool :=
  match r with Throw _ => true | Ret _ => false end.

(** ** JavaScript string primitives used by the sources *)

Module JS.

(** [s.length] *)
Definition len (s : string) : Z := Z.of_nat (String.length s).

Fixpoint sdrop (n : nat) (s : string) : string :=
  match n, s with
  | O, _ => s
  | S k, String _ s' => sdrop k s'
  | S _, EmptyString => EmptyString
  end.

Fixpoint stake (n : nat) (s : string) : string :=
  match n, s with
  | S k, String c s' => String c (stake k s')
  | _, _ => EmptyString
  end.

(** Position of the first occurrence of the code unit [c] in [s]. *)
Fixpoint sfind (c : ascii) (s : string) : option nat :=
  match s with
  | EmptyString => None
  | String a s' => if Ascii.eqb a c then Some O else S <$> sfind c s'
  end.

(** Position of the last occurrence of the code unit [c] in [s]. *)
Fixpoint sfind_last (c : ascii) (s : string) : option nat :=
  match s with
  | EmptyString => None
  | String a s' =>
      match sfind_last c s' with
      | Some k => Some (S k)
      | None => if Ascii.eqb a c then Some O else None
      end
  end.

Definition pos_or_minus1 (base : nat) (o : option nat) : Z :=
  match o with
  | Some k => Z.of_nat (base + k)
  | None => -1
  end.

(** [s.indexOf(c, from)] for a one-character search string: the position is
    clamped to [0 .. s.length], the search runs forwards from it. *)
Definition indexOf (s : string) (c : ascii) (from : Z) : Z :=
  let start := Z.to_nat (Z.min (Z.max 0 from) (len s)) in
  pos_or_minus1 start (sfind c (sdrop start s)).

(** [s.lastIndexOf(c, from)]: the last occurrence at an index [<= from]
    (a negative [from] counts as [0]). *)
Definition lastIndexOf (s : string) (c : ascii) (from : Z) : Z :=
  let stop := Z.to_nat (Z.max 0 from) in
  pos_or_minus1 O (sfind_last c (stake (S stop) s)).

(** [s.slice(a, b)]: negative indices count from the end, both are clamped to
    the string, an empty range gives the empty string. *)
Definition slice_index (s : string) (i : Z) : Z :=
  if i <? 0 then Z.max 0 (len s + i) else Z.min i (len s).

Definition slice (s : string) (a b : Z) : string :=
  let a' := slice_index s a in
  let b' := slice_index s b in
  stake (Z.to_nat (b' - a')) (sdrop (Z.to_nat a') s).

(** [s.slice(a)] *)
Definition slice_from (s : string) (a : Z) : string := slice s a (len s).

(** White space removed by [trim], among the code units below 256:
    TAB, LF, VT, FF, CR, SP and NBSP. *)
Definition is_space (c : ascii) : bool :=
  let n := nat_of_ascii c in
  ((9 <=? n) && (n <=? 13) || (n =? 32) || (n =? 160))%nat.

Fixpoint trimStart (s : string) : string :=
  match s with
  | String c s' => if is_space c then trimStart s' else s
  | EmptyString => EmptyString
  end.

Fixpoint trimEnd (s : string) : string :=
  match s with
  | EmptyString => EmptyString
  | String c s' =>
      match trimEnd s' with
      | EmptyString => if is_space c then EmptyString else String c EmptyString
      | t => String c t
      end
  end.

Definition trim (s : string) : string := trimEnd (trimStart s).

(** [s.split(c)] for a one-character separator; never the empty list. *)
Fixpoint split (c : ascii) (s : string) : list string :=
  match s with
  | EmptyString => [EmptyString]
  | String a s' =>
      if Ascii.eqb a c then EmptyString :: split c s'
      else match split c s' with
           | h :: t => String a h :: t
           | [] => [String a EmptyString]
           end
  end.

(** Truthiness of a string: only the empty string is falsy. *)
Definition truthy (s : string) : bool :=
  match s with EmptyString => false | _ => true end.

(** The one-character string holding a double quote. *)
Definition dquote : string := String (ascii_of_nat 34) EmptyString.

(** [s[0]] *)
Definition first_char (s : string) : option ascii :=
  match s with String c _ => Some c | EmptyString => None end.

(** [s.toLowerCase()], on the code units below 256: the letters [A-Z] and
    the capital letters of Latin-1 ([À-Ö], [Ø-Þ]) move up by 32, every other
    code unit stays. *)
Definition is_upper (c : ascii) : bool :=
  let n := nat_of_ascii c in
  ((65 <=? n) && (n <=? 90)
   || (192 <=? n) && (n <=? 222) && negb (n =? 215))%nat.

Definition lower_char (c : ascii) : ascii :=
  if is_upper c then ascii_of_nat (nat_of_ascii c + 32) else c.

Fixpoint toLowerCase (s : string) : string :=
  match s with
  | EmptyString => EmptyString
  | String c s' => String (lower_char c) (toLowerCase s')
  end.

(** The number of occurrences of a code unit. *)
Fixpoint count_char (c : ascii) (s : string) : nat :=
  match s with
  | EmptyString => O
  | String a s' => ((if Ascii.eqb a c then 1 else 0) + count_char c s')%nat
  end.

(** A string that does not start with white space. *)
Definition clean_start (s : string) : Prop :=
  match s with
  | String c _ => is_space c = false
  | EmptyString => True
  end.

(** Free of surrounding white space. *)
Definition trimmed (s : string) : Prop := trim s = s.

End JS.

(** ** External packages used by the utilities *)

(** JavaScript numbers that are not string indices: the literal [1] of
    [quality], the result of [parseFloat], and the comparison [i < n] of
    [compileTrust]. *)
Class NumLib : Type := {
  Num : Type;
  num_of_Z : Z -> Num;
  num_lt : Num -> Num -> bool;
  parseFloat : string -> Num;
}.

(** [mime.lookup]: a content type, or [false] ([None]). *)
Class MimeLib : Type := {
  mime_lookup : string -> option string;
}.

(** The [etag] package and node's [Buffer]. *)
Record ETagOptions : Type := { weak : bool }.

Class ETagLib : Type := {
  Buffer : Type;
  BufferEncoding : Type;
  Buffer_from : string -> BufferEncoding -> Buffer;
  etagOriginal : Buffer -> ETagOptions -> string;
}.

(** [querystring.parse] and [qs.parse]. *)
Record QsOptions : Type := { allowPrototypes : bool }.

Class QueryLib : Type := {
  ParsedQuery : Type;
  querystring_parse : string -> ParsedQuery;
  qs_parse : string -> QsOptions -> ParsedQuery;
}.

(** [proxyaddr.compile]: a trust predicate over (address, hop index), or an
    exception for a malformed address list. *)
Class ProxyAddrLib `{NumLib} : Type := {
  proxyaddr_compile : list string -> res (string -> Num -> bool);
}.

(** [METHODS] of [node:http]. *)
Class HttpLib : Type := {
  METHODS : list string;
}.

(** The [content-type] package: [parse] gives the type and its parameters,
    [format] the text of both; each throws on malformed input. *)
Record ParsedContentType : Type := {
  ct_type : string;
  ct_parameters : gmap string string;
}.

Class ContentTypeLib : Type := {
  contentType_parse : string -> res ParsedContentType;
  contentType_format : ParsedContentType -> res string;
}.

(** ** The utilities *)

Module Utils.

(** A setting of type [boolean | string | Function]. *)
Inductive Setting (F : Type) : Type :=
| SBool (b : bool)
| SStr (s : string)
| SFun (f : F).
Arguments SBool {F} b.
Arguments SStr {F} s.
Arguments SFun {F} f.

Section Definitions.
Context `{NumLib} `{MimeLib} `{ETagLib} `{QueryLib} `{!ProxyAddrLib}.

(** *** acceptParams *)

Record AcceptParams : Type := mkAcceptParams {
  value : string;
  quality : Num;
  params : gmap string string;
}.

Definition set_quality (q : Num) (r : AcceptParams) : AcceptParams :=
  {| value := value r; quality := q; params := params r |}.

(** [obj[key] = value] for a string value on an object made by the literal
    [{}].  Such an object inherits from [Object.prototype], where the key
    [__proto__] is an accessor whose setter ignores a value that is not an
    object: the assignment stores nothing.  Every other key becomes a
    property of the object. *)
Definition object_set (key value : string) (obj : gmap string string)
    : gmap string string :=
  if String.eqb key "__proto__" then obj else <[key := value]> obj.

(** [ret.params[k] = v] *)
Definition set_param (k v : string) (r : AcceptParams) : AcceptParams :=
  {| value := value r; quality := quality r;
     params := object_set k v (params r) |}.

(** The loop state: the scan [index] and the object [ret] under construction. *)
Record LoopState : Type := mkLoopState {
  index : Z;
  ret : AcceptParams;
}.

(** What one run of the loop body does: [break], or go round again. *)
Inductive Iter : Type :=
| Break (r : AcceptParams)
| Continue (st : LoopState).

(** [const colonIndex = str.indexOf(';');
     let index = colonIndex === -1 ? length : colonIndex;
     const ret = { value: str.slice(0, index).trim(), quality: 1, params: {} }] *)
Definition acceptParams_init (str : string) : LoopState :=
  let length := JS.len str in
  let colonIndex := JS.indexOf str ";" 0 in
  let index := if colonIndex =? -1 then length else colonIndex in
  {| index := index;
     ret := {| value := JS.trim (JS.slice str 0 index);
               quality := num_of_Z 1;
               params := ∅ |} |}.

(** [index < length] *)
Definition acceptParams_cond (str : string) (st : LoopState) : bool :=
  index st <? JS.len str.

(** The body of the [while] loop. *)
Definition acceptParams_body (str : string) (st : LoopState) : Iter :=
  let length := JS.len str in
  let splitIndex := JS.indexOf str "=" (index st) in
  if splitIndex =? -1 then Break (ret st)
  else
    let colonIndex := JS.indexOf str ";" (index st) in
    let endIndex := if colonIndex =? -1 then length else colonIndex in
    if splitIndex >? endIndex then
      Continue {| index := JS.lastIndexOf str ";" (splitIndex - 1) + 1;
                  ret := ret st |}
    else
      let key := JS.trim (JS.slice str (index st) splitIndex) in
      let value := JS.trim (JS.slice str (splitIndex + 1) endIndex) in
      Continue {| index := endIndex + 1;
                  ret := if String.eqb key "q"
                         then set_quality (parseFloat value) (ret st)
                         else set_param key value (ret st) |}.

(** The [while] loop, run for at most [fuel] executions of its body; the
    second component counts the executions of the body.  [None]: the fuel
    did not suffice. *)
Fixpoint acceptParams_loop (fuel : nat) (str : string) (st : LoopState)
    (iterations : nat) : option (AcceptParams * nat) :=
  if acceptParams_cond str st then
    match fuel with
    | O => None
    | S fuel' =>
        match acceptParams_body str st with
        | Break r => Some (r, S iterations)
        | Continue st' => acceptParams_loop fuel' str st' (S iterations)
        end
    end
  else Some (ret st, iterations).

(** [acceptParams(str)], with the number of loop iterations it took. *)
Definition acceptParams_counted (str : string) : option (AcceptParams * nat) :=
  acceptParams_loop (String.length str) str (acceptParams_init str) O.

Definition acceptParams (str : string) : option AcceptParams :=
  fst <$> acceptParams_counted str.

(** *** normalizeType, normalizeTypes *)

(** The object [normalizeType] returns: the branch without a [/] has no
    [quality] property. *)
Record NormalizedType : Type := mkNormalizedType {
  nt_value : string;
  nt_quality : option Num;
  nt_params : gmap string string;
}.

Definition normalizeType (type : string) : option NormalizedType :=
  if negb (JS.indexOf type "/" 0 =? -1) then
    r ← acceptParams type;
    Some {| nt_value := value r; nt_quality := Some (quality r);
            nt_params := params r |}
  else
    Some {| nt_value := default "application/octet-stream" (mime_lookup type);
            nt_quality := None;
            nt_params := ∅ |}.

Definition normalizeTypes (types : list string) : option (list NormalizedType) :=
  mapM normalizeType types.

(** *** What the loop does, piece by piece

    A piece is the text between two [;].  A piece with an [=] is stored: its
    key is the trimmed text before the first [=], its value the trimmed text
    after it. *)

Definition parameter_pair (piece : string) : option (string * string) :=
  k ← JS.sfind "=" piece;
  Some (JS.trim (JS.stake k piece), JS.trim (JS.sdrop (S k) piece)).

Definition is_q (kv : string * string) : bool := String.eqb (fst kv) "q".

Definition store_pair (kv : string * string) (r : AcceptParams) : AcceptParams :=
  if is_q kv then set_quality (parseFloat (snd kv)) r
  else set_param (fst kv) (snd kv) r.

Definition store_piece (piece : string) (r : AcceptParams) : AcceptParams :=
  match parameter_pair piece with
  | Some kv => store_pair kv r
  | None => r
  end.

Definition store_pieces (pieces : list string) (r : AcceptParams) : AcceptParams :=
  foldl (fun acc piece => store_piece piece acc) r pieces.

(** *** The specification of [acceptParams] in words

    The value is the trimmed text before the first [;].  The key=value pairs
    are those of the pieces after the first [;].  The quality is [1], or what
    the last pair with key [q] says; every other pair is stored in [params],
    in the order of the text. *)

Definition before_first_semicolon (str : string) : string :=
  match JS.sfind ";" str with
  | Some k => JS.stake k str
  | None => str
  end.

Definition spec_pairs (str : string) : list (string * string) :=
  omap parameter_pair (tail (JS.split ";" str)).

Definition spec_quality (start : Num) (pairs : list (string * string)) : Num :=
  match last (List.filter is_q pairs) with
  | Some kv => parseFloat (snd kv)
  | None => start
  end.

Definition spec_params (start : gmap string string) (pairs : list (string * string))
    : gmap string string :=
  foldl (fun m kv => <[fst kv := snd kv]> m) start
        (List.filter (fun kv => negb (is_q kv)) pairs).

Definition spec_acceptParams (str : string) : AcceptParams :=
  {| value := JS.trim (before_first_semicolon str);
     quality := spec_quality (num_of_Z 1) (spec_pairs str);
     params := spec_params ∅ (spec_pairs str) |}.

(** *** The result of [acceptParams], written without the loop

    As the specification in words, but for the parameters: a pair is put
    into [params] by an assignment to a property of an object, which stores
    nothing under the key [__proto__]. *)

Definition stored_params (start : gmap string string) (pairs : list (string * string))
    : gmap string string :=
  foldl (fun m kv => object_set (fst kv) (snd kv) m) start
        (List.filter (fun kv => negb (is_q kv)) pairs).

Definition result_acceptParams (str : string) : AcceptParams :=
  {| value := JS.trim (before_first_semicolon str);
     quality := spec_quality (num_of_Z 1) (spec_pairs str);
     params := stored_params ∅ (spec_pairs str) |}.

(** *** createETagGenerator, etag, wetag *)

Inductive Body : Type :=
| BodyString (s : string)
| BodyBuffer (b : Buffer).

Definition ETagFn : Type := Body -> BufferEncoding -> string.

Definition createETagGenerator (options : ETagOptions) : ETagFn :=
  fun body encoding =>
    let buf := match body with
               | BodyString s => Buffer_from s encoding
               | BodyBuffer b => b
               end in
    etagOriginal buf options.

Definition etag : ETagFn := createETagGenerator {| weak := false |}.
Definition wetag : ETagFn := createETagGenerator {| weak := true |}.

(** *** parseExtendedQueryString *)

Definition QueryFn : Type := string -> ParsedQuery.

Definition parseExtendedQueryString : QueryFn :=
  fun str => qs_parse str {| allowPrototypes := true |}.

(** *** compileETag, compileQueryParser *)

(** [case true:], [case false:] of a [switch]: strict equality with a boolean. *)
Definition is_bool {F} (val : Setting F) (b : bool) : bool :=
  match val with SBool b' => Bool.eqb b' b | _ => false end.

(** [case 'weak':] and the like: strict equality with a string. *)
Definition is_str {F} (val : Setting F) (s : string) : bool :=
  match val with SStr s' => String.eqb s' s | _ => false end.

(** ['...' + val] *)
Definition setting_to_string {F} (val : Setting F) : string :=
  match val with
  | SBool true => "true"
  | SBool false => "false"
  | SStr s => s
  | SFun _ => "function"
  end.

(** The result is a function, or [undefined] ([None]). *)
Definition compileETag (val : Setting ETagFn) : res (option ETagFn) :=
  match val with
  | SFun f => Ret (Some f)
  | _ =>
      if is_bool val true || is_str val "weak" then Ret (Some wetag)
      else if is_bool val false then Ret None
      else if is_str val "strong" then Ret (Some etag)
      else Throw (TypeError ("unknown value for etag function: "
                               +:+ setting_to_string val))
  end.

Definition compileQueryParser (val : Setting QueryFn) : res (option QueryFn) :=
  match val with
  | SFun f => Ret (Some f)
  | _ =>
      if is_bool val true || is_str val "simple" then Ret (Some querystring_parse)
      else if is_bool val false then Ret None
      else if is_str val "extended" then Ret (Some parseExtendedQueryString)
      else Throw (TypeError ("unknown value for query parser function: "
                               +:+ setting_to_string val))
  end.

Definition is_function {F} (val : Setting F) : bool :=
  match val with SFun _ => true | _ => false end.

(** The configuration values [compileETag] recognizes. *)
Definition etag_recognized {F} (val : Setting F) : bool :=
  is_bool val true || is_bool val false || is_str val "weak" || is_str val "strong".

(** The configuration values [compileQueryParser] recognizes. *)
Definition query_recognized {F} (val : Setting F) : bool :=
  is_bool val true || is_bool val false || is_str val "simple" || is_str val "extended".

(** *** compileTrust *)

Definition TrustFn : Type := string -> Num -> bool.

(** A setting of type [boolean | string | number | string[] | Function]. *)
Inductive TrustSetting : Type :=
| TBool (b : bool)
| TStr (s : string)
| TNum (n : Num)
| TArr (l : list string)
| TFun (f : TrustFn).

(** [val || []] once the function, [true], number and string cases are
    gone: an array is truthy, [false] is not. *)
Definition or_empty (val : TrustSetting) : list string :=
  match val with
  | TArr l => l
  | _ => []
  end.

Definition compileTrust (val : TrustSetting) : res TrustFn :=
  match val with
  | TFun f => Ret f
  | TBool true => Ret (fun _ _ => true)
  | TNum n => Ret (fun a i => num_lt i n)
  | _ =>
      let val := match val with
                 | TStr s => TArr (map JS.trim (JS.split "," s))
                 | _ => val
                 end in
      proxyaddr_compile (or_empty val)
  end.

(** The object [normalizeType] returns for a type with a [/], given what
    [acceptParams] returned for it, and the one for a type without. *)
Definition of_acceptParams (r : AcceptParams) : NormalizedType :=
  {| nt_value := value r; nt_quality := Some (quality r); nt_params := params r |}.

Definition of_extension (type : string) : NormalizedType :=
  {| nt_value := default "application/octet-stream" (mime_lookup type);
     nt_quality := None;
     nt_params := ∅ |}.

(** *** methods *)

Context `{HttpLib} `{ContentTypeLib}.

Definition methods : list string := map JS.toLowerCase METHODS.

(** *** setCharset *)

(** [parsed.parameters.charset = charset] *)
Definition set_charset_parameter (charset : string) (parsed : ParsedContentType)
    : ParsedContentType :=
  {| ct_type := ct_type parsed;
     ct_parameters := <["charset" := charset]> (ct_parameters parsed) |}.

Definition setCharset (type charset : string) : res string :=
  if negb (JS.truthy type) || negb (JS.truthy charset) then Ret type
  else
    match contentType_parse type with
    | Throw e => Throw e
    | Ret parsed => contentType_format (set_charset_parameter charset parsed)
    end.

(** *** More vocabulary *)

(** The list [compileTrust] hands to [proxyaddr.compile] for a string. *)
Definition trust_entries (s : string) : list string :=
  map JS.trim (JS.split "," s).

(** The last pair with a given key. *)
Definition last_with_key (key : string) (pairs : list (string * string))
    : option string :=
  snd <$> last (List.filter (fun kv => String.eqb (fst kv) key) pairs).

End Definitions.

End Utils.

(** ** node's [path], [fs] and [require], as the view module uses them *)

Class PathLib : Type := {
  extname : string -> string;
  basename : string -> string;
  (** [basename(file, ext)] *)
  basename_ext : string -> string -> string;
  dirname : string -> string;
  (** [join(...segments)] *)
  join : list string -> string;
  (** [resolve(root, name)] *)
  path_resolve : string -> string -> string;
}.

Record Stats : Type := { isFile : bool }.

(** [fs.statSync]: the stats of a path, or an exception. *)
Class FsLib : Type := {
  statSync : string -> res Stats;
}.

(** ** The view module *)

Module View.

Section Definitions.
Context {Engine : Type} `{PathLib} `{FsLib}.

(** The [__express] export of a module, by [typeof]. *)
Inductive Export : Type :=
| ExportFunction (fn : Engine)
| ExportOther.

Record Module : Type := { __express : Export }.

(** [require]: the loaded module, read at [__express], or an exception. *)
Definition Require : Type := string -> res Module.

Context (require : Require).

(** [root] is one directory or an array of directories
    ([[].concat(this.root)] accepts both). *)
Inductive Root : Type :=
| RootDir (dir : string)
| RootDirs (dirs : list string).

(** [[].concat(root)] *)
Definition concat_root (root : Root) : list string :=
  match root with
  | RootDir d => [d]
  | RootDirs ds => ds
  end.

(** The engine cache [options.engines] is a shared mutable object: the
    options hold a reference to it, the store maps references to caches.
    The options have their declared type
    [{defaultEngine: string, engines: Record<string, Engine>, root: string}],
    with [defaultEngine] possibly left out and [root] possibly an array;
    [options || {}] is then [options].  The constructor only reads
    [defaultEngine] and [root], so they are plain fields. *)
Definition ref : Type := nat.

Record Options : Type := mkOptions {
  opt_defaultEngine : option string;
  opt_engines : ref;
  opt_root : Root;
}.

(** What the outside world sees of a run: modules loaded, paths stat'ed. *)
Inductive Event : Type :=
| EvRequire (modname : string)
| EvStat (path : string).

Record World : Type := mkWorld {
  heap : gmap ref (gmap string Engine);
  trace : list Event;
}.

(** The object a reference points to (a reference that was never written
    points to the empty object). *)
Definition cache_of (w : World) (r : ref) : gmap string Engine :=
  default ∅ (heap w !! r).

(** *** A state and exception monad *)

Definition M (A : Type) : Type := World -> World * res A.

Definition mret {A} (a : A) : M A := fun w => (w, Ret a).

Definition mthrow {A} (e : exn) : M A := fun w => (w, Throw e).

Definition mbnd {A B} (m : M A) (k : A -> M B) : M B :=
  fun w =>
    match m w with
    | (w', Ret a) => k a w'
    | (w', Throw e) => (w', Throw e)
    end.

Notation "x <-- m ;; k" := (mbnd m (fun x => k))
  (at level 100, m at next level, right associativity).
Notation "m ;;; k" := (mbnd m (fun _ => k))
  (at level 100, right associativity).

Definition emit (ev : Event) : M unit :=
  fun w => ({| heap := heap w; trace := trace w ++ [ev] |}, Ret tt).

(** [opts.engines[ext]] *)
Definition read_engine (r : ref) (ext : string) : M (option Engine) :=
  fun w => (w, Ret (cache_of w r !! ext)).

(** [opts.engines[ext] = fn] *)
Definition write_engine (r : ref) (ext : string) (fn : Engine) : M unit :=
  fun w => ({| heap := <[r := <[ext := fn]> (cache_of w r)]> (heap w);
               trace := trace w |}, Ret tt).

(** [require(mod)] *)
Definition do_require (modname : string) : M Module :=
  emit (EvRequire modname) ;;;
  match require modname with
  | Ret m => mret m
  | Throw e => mthrow e
  end.

(** *** tryStat *)

Definition tryStat (path : string) : M (option Stats) :=
  emit (EvStat path) ;;;
  match statSync path with
  | Ret st => mret (Some st)
  | Throw _ => mret None
  end.

(** [stat && stat.isFile()] *)
Definition stat_isFile (stat : option Stats) : bool :=
  match stat with
  | Some st => isFile st
  | None => false
  end.

(** *** View.resolve *)

Definition resolve (ext : string) (dir file : string) : M (option string) :=
  let path := join [dir; file] in
  stat <-- tryStat path ;;
  if stat_isFile stat then mret (Some path)
  else
    let path := join [dir; basename_ext file ext; "index" +:+ ext] in
    stat <-- tryStat path ;;
    if stat_isFile stat then mret (Some path)
    else mret None.

(** *** View.lookup *)

(** [!path] for [path : string | undefined] *)
Definition path_falsy (path : option string) : bool :=
  match path with
  | Some p => negb (JS.truthy p)
  | None => true
  end.

(** The [for] loop over the roots that are left, [path] being the result of
    the previous round. *)
Fixpoint lookup_loop (ext : string) (name : string) (roots : list string)
    (path : option string) : M (option string) :=
  match roots with
  | [] => mret path
  | root :: roots' =>
      if path_falsy path then
        let loc := path_resolve root name in
        let dir := dirname loc in
        let file := basename loc in
        path' <-- resolve ext dir file ;;
        lookup_loop ext name roots' path'
      else mret path
  end.

Definition lookup (ext : string) (root : Root) (name : string) : M (option string) :=
  let roots := concat_root root in
  lookup_loop ext name roots None.

(** *** The constructor *)

Record ViewObj : Type := mkView {
  v_defaultEngine : option string;
  v_ext : string;
  v_name : string;
  v_root : Root;
  v_engine : option Engine;
  v_path : option string;
}.

(** [!this.defaultEngine] *)
Definition defaultEngine_falsy (d : option string) : bool :=
  match d with
  | Some s => negb (JS.truthy s)
  | None => true
  end.

(** [this.defaultEngine?.[0] !== '.' ? '.' + this.defaultEngine : this.defaultEngine] *)
Definition ext_of_defaultEngine (d : option string) : string :=
  let s := default "undefined" d in
  match d ≫= JS.first_char with
  | Some "."%char => s
  | _ => "." +:+ s
  end.

(** The extension the view ends up with: the one of the name, or else the
    one made from the default engine. *)
Definition view_ext (name : string) (opts : Options) : string :=
  let ext := extname name in
  if negb (JS.truthy ext) then ext_of_defaultEngine (opt_defaultEngine opts)
  else ext.

Definition new_View (name : string) (opts : Options) : M ViewObj :=
  let defaultEngine := opt_defaultEngine opts in
  let ext := extname name in
  let root := opt_root opts in
  if negb (JS.truthy ext) && defaultEngine_falsy defaultEngine then
    mthrow (Error "No default engine was specified and no extension was provided.")
  else
    let fileName := name in
    let '(ext, fileName) :=
      if negb (JS.truthy ext) then
        let ext := ext_of_defaultEngine defaultEngine in
        (ext, fileName +:+ ext)
      else (ext, fileName) in
    cached <-- read_engine (opt_engines opts) ext ;;
    (match cached with
     | Some _ => mret tt
     | None =>
         let modname := JS.slice_from ext 1 in
         m <-- do_require modname ;;
         match __express m with
         | ExportFunction fn => write_engine (opt_engines opts) ext fn
         | ExportOther =>
             mthrow (Error ("Module " +:+ JS.dquote +:+ modname +:+ JS.dquote
                            +:+ " does not provide a view engine."))
         end
     end) ;;;
    engine <-- read_engine (opt_engines opts) ext ;;
    path <-- lookup ext root fileName ;;
    mret {| v_defaultEngine := defaultEngine; v_ext := ext; v_name := name;
            v_root := root; v_engine := engine; v_path := path |}.

(** *** Vocabulary for the properties *)

(** The name has no extension and no default engine is given: the first
    check of the constructor. *)
Definition validation_fails (name : string) (opts : Options) : bool :=
  negb (JS.truthy (extname name)) && defaultEngine_falsy (opt_defaultEngine opts).

(** The file name that is looked up: the name, with the extension added
    when it has none. *)
Definition view_fileName (name : string) (opts : Options) : string :=
  if negb (JS.truthy (extname name)) then name +:+ view_ext name opts else name.

(** The module named by an extension. *)
Definition module_of_ext (ext : string) : string := JS.slice_from ext 1.

(** The engine function that loading the module of [ext] gives, if any. *)
Definition load_engine (ext : string) : option Engine :=
  match require (module_of_ext ext) with
  | Ret m =>
      match __express m with
      | ExportFunction fn => Some fn
      | ExportOther => None
      end
  | Throw _ => None
  end.

(** The engine the constructor loads from a module: there is one when the
    first check passes, the cache has no entry for the extension, and the
    module exports an engine function. *)
Definition engine_loaded (name : string) (opts : Options) (w : World) : option Engine :=
  if validation_fails name opts then None
  else match cache_of w (opt_engines opts) !! view_ext name opts with
       | Some _ => None
       | None => load_engine (view_ext name opts)
       end.

(** The view that the constructor builds. *)
Definition built (name : string) (opts : Options) (engine : option Engine)
    (path : option string) : ViewObj :=
  {| v_defaultEngine := opt_defaultEngine opts;
     v_ext := view_ext name opts;
     v_name := name;
     v_root := opt_root opts;
     v_engine := engine;
     v_path := path |}.

(** The world with more events. *)
Definition add_trace (evs : list Event) (w : World) : World :=
  {| heap := heap w; trace := trace w ++ evs |}.

(** The world after [opts.engines[ext] = fn]. *)
Definition store_engine (r : ref) (ext : string) (fn : Engine) (w : World) : World :=
  {| heap := <[r := <[ext := fn]> (cache_of w r)]> (heap w); trace := trace w |}.

(** The modules a trace shows as loaded. *)
Definition required (evs : list Event) : list string :=
  omap (fun ev => match ev with EvRequire m => Some m | EvStat _ => None end) evs.

(** The stat of the path succeeds and reports a regular file. *)
Definition is_regular_file (path : string) : bool :=
  match statSync path with
  | Ret st => isFile st
  | Throw _ => false
  end.

(** The two candidate paths of [resolve], in the order they are tried. *)
Definition candidates (ext dir file : string) : list string :=
  [join [dir; file]; join [dir; basename_ext file ext; "index" +:+ ext]].

(** The paths of a list that get stat'ed when the list is tried in order
    and the first regular file ends the search. *)
Fixpoint stats_until (paths : list string) : list string :=
  match paths with
  | [] => []
  | p :: ps => p :: (if is_regular_file p then [] else stats_until ps)
  end.

(** The candidates of one root directory, and the path it resolves to. *)
Definition root_candidates (ext name root : string) : list string :=
  let loc := path_resolve root name in
  candidates ext (dirname loc) (basename loc).

Definition resolve_root (ext name root : string) : option string :=
  List.find is_regular_file (root_candidates ext name root).

(** The first path that a root resolves to, going through the roots in
    order. *)
Definition first_resolved (ext name : string) (roots : list string) : option string :=
  head (omap (resolve_root ext name) roots).

(** The roots that are consulted: all up to and including the first one
    that resolves. *)
Fixpoint consulted (ext name : string) (roots : list string) : list string :=
  match roots with
  | [] => []
  | root :: roots' =>
      root :: match resolve_root ext name root with
              | Some _ => []
              | None => consulted ext name roots'
              end
  end.

(** The paths stat'ed for a list of roots. *)
Definition root_stats (ext name : string) (roots : list string) : list string :=
  concat (map (fun root => stats_until (root_candidates ext name root)) roots).

(** The paths a trace shows as stat'ed. *)
Definition stated (evs : list Event) : list string :=
  omap (fun ev => match ev with EvStat p => Some p | EvRequire _ => None end) evs.

(** The options with another default engine, and a view with another
    [defaultEngine] field. *)
Definition with_defaultEngine (d : option string) (opts : Options) : Options :=
  {| opt_defaultEngine := d; opt_engines := opt_engines opts;
     opt_root := opt_root opts |}.

Definition view_with_defaultEngine (d : option string) (v : ViewObj) : ViewObj :=
  {| v_defaultEngine := d; v_ext := v_ext v; v_name := v_name v;
     v_root := v_root v; v_engine := v_engine v; v_path := v_path v |}.

(** A result with its value changed. *)
Definition res_map {A B} (f : A -> B) (r : res A) : res B :=
  match r with
  | Ret a => Ret (f a)
  | Throw e => Throw e
  end.

End Definitions.

End View.

(** ** View.render and the event loop

    [render] calls the engine with the callback [onRender].  The engine is
    any JavaScript function: it may call [onRender] while it runs, return or
    throw, and call [onRender] again later.  A run is therefore a schedule of
    events applied to the state that [render] and [onRender] share: the local
    variable [sync], the queue of [process.nextTick], and a record of every
    invocation of the user callback. *)

Module Render.

Section Definitions.
Context {Engine RenderOptions Value : Type}.

(** An argument of a call: a value, or [undefined] (also what a hole of
    [new Array(n)] reads as). *)
Inductive Arg : Type :=
| Undefined
| Val (v : Value).

(** Where the engine call of [render] stands. *)
Inductive Phase : Type :=
| Calling    (* the engine call has not returned: [render] is on the stack *)
| Returned   (* it returned, and [render] ran [sync = false] and returned *)
| Threw.     (* it threw, and so did [render] *)

(** One invocation of the user callback: [callback.apply(this, args)]. *)
Inductive ThisArg : Type := ThisOnRender.

Record Invocation : Type := mkInvocation {
  inv_this : ThisArg;
  inv_args : list Arg;
  (** was [render] still on the stack? *)
  inv_during_render : bool;
}.

Record State : Type := mkState {
  (** [this.engine(this.path, options, onRender)] *)
  engine_called : Engine * option string * RenderOptions;
  (** [let sync] *)
  sync : bool;
  phase : Phase;
  (** the pending [renderTick] closures, each with the [args] it captured *)
  ticks : list (ThisArg * list Arg);
  (** the invocations of [callback] so far, oldest first *)
  invocations : list Invocation;
}.

Definition on_stack (st : State) : bool :=
  match phase st with Calling => true | _ => false end.

Definition set_sync (b : bool) (st : State) : State :=
  {| engine_called := engine_called st; sync := b; phase := phase st;
     ticks := ticks st; invocations := invocations st |}.

Definition set_phase (p : Phase) (st : State) : State :=
  {| engine_called := engine_called st; sync := sync st; phase := p;
     ticks := ticks st; invocations := invocations st |}.

(** [callback.apply(this, args)] *)
Definition apply_callback (this : ThisArg) (args : list Arg) (st : State) : State :=
  {| engine_called := engine_called st; sync := sync st; phase := phase st;
     ticks := ticks st;
     invocations := invocations st ++
       [{| inv_this := this; inv_args := args;
           inv_during_render := on_stack st |}] |}.

(** [process.nextTick(function renderTick() { return callback.apply(cntx, args) })] *)
Definition nextTick (cntx : ThisArg) (args : list Arg) (st : State) : State :=
  {| engine_called := engine_called st; sync := sync st; phase := phase st;
     ticks := ticks st ++ [(cntx, args)];
     invocations := invocations st |}.

(** [const args = new Array(arguments.length);
     for (let i = 0; i < arguments.length; i++) args[i] = arguments[i];] *)
Definition copy_arguments (arguments : list Arg) : list Arg :=
  foldl (fun args i => <[i := default Undefined (arguments !! i)]> args)
        (replicate (length arguments) Undefined)
        (seq 0 (length arguments)).

(** [function onRender() { ... }] *)
Definition onRender (arguments : list Arg) (st : State) : State :=
  if negb (sync st) then apply_callback ThisOnRender arguments st
  else
    let args := copy_arguments arguments in
    let cntx := ThisOnRender in
    nextTick cntx args st.

(** [render] up to the engine call: [let sync = true], then the engine is
    called. *)
Definition render_enter (engine : Engine) (path : option string)
    (options : RenderOptions) : State :=
  {| engine_called := (engine, path, options); sync := true; phase := Calling;
     ticks := []; invocations := [] |}.

(** [view.render(options, callback)]: calling [this.engine] when it is not
    a function is a [TypeError]. *)
Definition render (view : @View.ViewObj Engine) (options : RenderOptions) : res State :=
  match View.v_engine view with
  | Some engine => Ret (render_enter engine (View.v_path view) options)
  | None => Throw (TypeError "this.engine is not a function")
  end.

(** [render] after the engine call returned: [sync = false]. *)
Definition render_leave (st : State) : State :=
  set_phase Returned (set_sync false st).

(** What can happen next. *)
Inductive Ev : Type :=
| EngineCallsBack (arguments : list Arg)  (* the engine calls [onRender] *)
| EngineReturns                       (* the engine call returns *)
| EngineThrows                        (* the engine call throws *)
| Tick.                               (* node runs the oldest queued tick *)

(** One event; [None] when the event cannot happen in that state: the
    engine call ends once, and node runs a tick only when the stack is
    empty, so not while [render] is on it. *)
Definition step (ev : Ev) (st : State) : option State :=
  match ev with
  | EngineCallsBack arguments => Some (onRender arguments st)
  | EngineReturns =>
      if on_stack st then Some (render_leave st) else None
  | EngineThrows =>
      if on_stack st then Some (set_phase Threw st) else None
  | Tick =>
      if on_stack st then None
      else match ticks st with
           | (cntx, args) :: rest =>
               Some (apply_callback cntx args
                       {| engine_called := engine_called st; sync := sync st;
                          phase := phase st; ticks := rest;
                          invocations := invocations st |})
           | [] => None
           end
  end.

Fixpoint run (evs : list Ev) (st : State) : option State :=
  match evs with
  | [] => Some st
  | ev :: evs' => st' ← step ev st; run evs' st'
  end.

(** The arguments the engine passed to [onRender], in order. *)
Definition engine_arguments (evs : list Ev) : list (list Arg) :=
  omap (fun ev => match ev with EngineCallsBack a => Some a | _ => None end) evs.

(** The arguments the user callback was invoked with, and those of the
    invocations still queued. *)
Definition delivered (st : State) : list (list Arg) := map inv_args (invocations st).

Definition pending (st : State) : list (list Arg) := map snd (ticks st).

(** The state with other ticks and invocations. *)
Definition with_queue (ts : list (ThisArg * list Arg)) (invs : list Invocation)
    (st : State) : State :=
  {| engine_called := engine_called st; sync := sync st; phase := phase st;
     ticks := ts; invocations := invs |}.

(** What holds of every state of a run: [sync] is still [true] while the
    engine call is running and [false] once it returned; the callback has
    not been invoked while the call is running, and never with [render] on
    the stack. *)
Record Inv (st : State) : Prop := mkInv {
  inv_calling : phase st = Calling -> sync st = true;
  inv_returned : phase st = Returned -> sync st = false;
  inv_none : phase st = Calling -> invocations st = [];
  inv_async : Forall (fun i => inv_during_render i = false) (invocations st);
}.

End Definitions.

End Render.

(** ** Stand-ins for the external packages

    Small executable instances of the library interfaces, so that the
    definitions above can be run on concrete inputs.  Nothing is proved
    about node through them. *)

Module Standin.

(** Numbers: integer literals, and the text handed to [parseFloat] kept as
    it is. *)
Inductive num : Type :=
| Int (z : Z)
| Parsed (text : string).

#[export] Instance num_lib : NumLib := {|
  Num := num;
  num_of_Z := Int;
  num_lt := fun a b => match a, b with Int x, Int y => x <? y | _, _ => false end;
  parseFloat := Parsed;
|}.

#[export] Instance mime_lib : MimeLib := {|
  mime_lookup := fun type =>
    if String.eqb type "html" then Some "text/html"
    else if String.eqb type "json" then Some "application/json"
    else None;
|}.

#[export] Instance etag_lib : ETagLib := {|
  Buffer := string;
  BufferEncoding := unit;
  Buffer_from := fun s _ => s;
  etagOriginal := fun buf o => (if weak o then "W/" else "") +:+ buf;
|}.

#[export] Instance query_lib : QueryLib := {|
  ParsedQuery := list string;
  querystring_parse := fun str => JS.split "&" str;
  qs_parse := fun str _ => JS.split "&" str;
|}.

#[export] Instance proxyaddr_lib : ProxyAddrLib := {|
  proxyaddr_compile := fun l => Ret (fun (a : string) (_ : Num) => bool_decide (a ∈ l));
|}.

(** Paths with [/] as the only special character, no normalization. *)
Definition last_slash (p : string) : option nat := JS.sfind_last "/" p.

Definition toy_basename (p : string) : string :=
  match last_slash p with
  | Some k => JS.sdrop (S k) p
  | None => p
  end.

Definition toy_dirname (p : string) : string :=
  match last_slash p with
  | Some k => JS.stake k p
  | None => "."
  end.

Definition toy_extname (p : string) : string :=
  let b := toy_basename p in
  match JS.sfind_last "." b with
  | Some (S k) => String "." (JS.sdrop (S (S k)) b)
  | _ => EmptyString
  end.

Definition toy_basename_ext (p ext : string) : string :=
  let b := toy_basename p in
  let n := (String.length b - String.length ext)%nat in
  if String.eqb (JS.sdrop n b) ext && negb (String.eqb b ext) then JS.stake n b
  else b.

Fixpoint toy_join_segments (segments : list string) : string :=
  match segments with
  | [] => EmptyString
  | seg :: rest =>
      match toy_join_segments rest with
      | EmptyString => seg
      | tail => if JS.truthy seg then seg +:+ "/" +:+ tail else tail
      end
  end.

Definition toy_join (segments : list string) : string :=
  match toy_join_segments segments with
  | EmptyString => "."
  | p => p
  end.

Definition toy_resolve (root name : string) : string :=
  match name with
  | String "/" _ => name
  | _ => toy_join [root; name]
  end.

#[export] Instance path_lib : PathLib := {|
  extname := toy_extname;
  basename := toy_basename;
  basename_ext := toy_basename_ext;
  dirname := toy_dirname;
  join := toy_join;
  path_resolve := toy_resolve;
|}.

(** A file system with two regular files and one directory. *)
#[export] Instance fs_lib : FsLib := {|
  statSync := fun path =>
    if String.eqb path "/views/home.pug" then Ret {| isFile := true |}
    else if String.eqb path "/shared/about/index.pug" then Ret {| isFile := true |}
    else if String.eqb path "/views/about" then Ret {| isFile := false |}
    else Throw (Error "ENOENT");
|}.

(** Engines are known by name; the module [pug] exports one, the module
    [broken] exports none, every other module is missing. *)
Definition toy_require : @View.Require string :=
  fun modname =>
    if String.eqb modname "pug" then Ret {| View.__express := View.ExportFunction "pug.__express" |}
    else if String.eqb modname "broken" then Ret {| View.__express := View.ExportOther |}
    else Throw (Error "Cannot find module").

Definition empty_world : @View.World string :=
  {| View.heap := ∅; View.trace := [] |}.

Definition shown (r : option (Utils.AcceptParams * nat))
    : option (string * Num * list (string * string) * nat) :=
  match r with
  | Some (a, n) =>
      Some (Utils.value a, Utils.quality a, map_to_list (Utils.params a), n)
  | None => None
  end.

Definition options : View.Options :=
  {| View.opt_defaultEngine := Some "pug";
     View.opt_engines := 0%nat;
     View.opt_root := View.RootDirs ["/views"; "/shared"] |}.

Definition start : @Render.State string unit nat :=
  Render.render_enter "pug.__express" (Some "/views/home.pug") tt.

#[export] Instance http_lib : HttpLib := {|
  METHODS := ["GET"; "POST"; "M-SEARCH"; "DELETE"];
|}.

(** Content types written [type; key=value; ...], no quoting. *)
Definition toy_format_parameters (parameters : gmap string string) : string :=
  foldr (fun kv acc => "; " +:+ fst kv +:+ "=" +:+ snd kv +:+ acc) EmptyString
        (map_to_list parameters).

#[export] Instance content_type_lib : ContentTypeLib := {|
  contentType_parse := fun text =>
    match JS.split ";" text with
    | first :: pieces =>
        if JS.truthy (JS.trim first) then
          Ret {| ct_type := JS.trim first;
                 ct_parameters := list_to_map (omap Utils.parameter_pair pieces) |}
        else Throw (TypeError "invalid media type")
    | [] => Throw (TypeError "invalid media type")
    end;
  contentType_format := fun parsed =>
    if JS.truthy (ct_type parsed) then
      Ret (ct_type parsed +:+ toy_format_parameters (ct_parameters parsed))
    else Throw (TypeError "invalid type");
|}.

(** The world after the lookup of [about.pug] in [/views] and [/shared]. *)
Definition found : @View.World string :=
  View.add_trace [View.EvStat "/views/about.pug"; View.EvStat "/views/about/index.pug";
                  View.EvStat "/shared/about.pug"; View.EvStat "/shared/about/index.pug"]
    empty_world.

(** The view [home] of the stand-in application, and its render state
    once the engine call has thrown. *)
Definition home_view : @View.ViewObj string :=
  {| View.v_defaultEngine := Some "pug"; View.v_ext := ".pug";
     View.v_name := "home"; View.v_root := View.RootDirs ["/views"; "/shared"];
     View.v_engine := Some "pug.__express";
     View.v_path := Some "/views/home.pug" |}.

Definition thrown : @Render.State string unit nat :=
  Render.set_phase Render.Threw start.

End Standin.

(** * Properties *)

(** ** JavaScript strings *)

Module JSFacts.
Import JS.

(** *** Taking and dropping *)

Lemma length_sdrop (n : nat) (s : string) :
  String.length (sdrop n s) = (String.length s - n)%nat.
Proof.
  revert s; induction n as [|n IH]; intros [|a s]; simpl; auto with arith.
Qed.

Lemma length_stake (n : nat) (s : string) :
  String.length (stake n s) = Nat.min n (String.length s).
Proof.
  revert s; induction n as [|n IH]; intros [|a s]; simpl; auto.
Qed.

Lemma sdrop_empty (n : nat) : sdrop n EmptyString = EmptyString.
Proof. destruct n; reflexivity. Qed.

Lemma sdrop_sdrop (a b : nat) (s : string) :
  sdrop a (sdrop b s) = sdrop (b + a) s.
Proof.
  revert s; induction b as [|b IH]; intros s; simpl; [reflexivity|].
  destruct s as [|c s]; [apply sdrop_empty | apply IH].
Qed.

Lemma sdrop_all (n : nat) (s : string) :
  (String.length s <= n)%nat -> sdrop n s = EmptyString.
Proof.
  revert s; induction n as [|n IH]; intros [|a s]; simpl; intros Hle;
    try reflexivity; [lia | apply IH; lia].
Qed.

Lemma stake_all (n : nat) (s : string) :
  (String.length s <= n)%nat -> stake n s = s.
Proof.
  revert s; induction n as [|n IH]; intros [|a s]; simpl; intros Hle;
    try reflexivity; [lia | f_equal; apply IH; lia].
Qed.

Lemma stake_stake (k j : nat) (s : string) :
  (k <= j)%nat -> stake k (stake j s) = stake k s.
Proof.
  revert j s; induction k as [|k IH]; intros j s Hle; [destruct (stake j s); reflexivity|].
  destruct j as [|j]; [lia|]. destruct s as [|a s]; simpl; [reflexivity|].
  f_equal. apply IH. lia.
Qed.

Lemma sdrop_stake (a b : nat) (s : string) :
  sdrop a (stake b s) = stake (b - a) (sdrop a s).
Proof.
  revert b s; induction a as [|a IH]; intros b s; simpl.
  - now rewrite Nat.sub_0_r.
  - destruct b as [|b]; simpl.
    + destruct s as [|c s]; [reflexivity|]. now destruct (sdrop a s).
    + destruct s as [|c s]; simpl; [now destruct (b - a)%nat|]. apply IH.
Qed.

Lemma app_String (a : ascii) (u v : string) :
  String a u +:+ v = String a (u +:+ v).
Proof. reflexivity. Qed.

Lemma app_empty (v : string) : EmptyString +:+ v = v.
Proof. reflexivity. Qed.

(** *** First and last occurrences *)

Lemma sfind_lt (c : ascii) (s : string) (k : nat) :
  sfind c s = Some k -> (k < String.length s)%nat.
Proof.
  revert k; induction s as [|a s IH]; intros k; simpl; [discriminate|].
  destruct (Ascii.eqb a c); [intros [= <-]; lia|].
  destruct (sfind c s) as [k'|]; simpl; [|discriminate].
  intros [= <-]. specialize (IH k' eq_refl). lia.
Qed.

Lemma sfind_get (c : ascii) (s : string) (k : nat) :
  sfind c s = Some k -> String.get k s = Some c.
Proof.
  revert k; induction s as [|a s IH]; intros k; simpl; [discriminate|].
  destruct (Ascii.eqb_spec a c) as [->|Hne]; [intros [= <-]; reflexivity|].
  destruct (sfind c s) as [k'|]; simpl; [|discriminate].
  intros [= <-]. apply IH. reflexivity.
Qed.

Lemma sfind_stake_before (c : ascii) (s : string) (k j : nat) :
  sfind c s = Some k -> (j <= k)%nat -> sfind c (stake j s) = None.
Proof.
  revert k j; induction s as [|a s IH]; intros k j; simpl; [discriminate|].
  destruct j as [|j]; [reflexivity|]. simpl.
  destruct (Ascii.eqb a c); [intros [= <-]; lia|].
  destruct (sfind c s) as [k'|] eqn:E; simpl; [|discriminate].
  intros [= <-] Hle. rewrite (IH k' j eq_refl); [reflexivity | lia].
Qed.

Lemma sfind_stake_after (c : ascii) (s : string) (k j : nat) :
  sfind c s = Some k -> (k < j)%nat -> sfind c (stake j s) = Some k.
Proof.
  revert k j; induction s as [|a s IH]; intros k j; simpl; [discriminate|].
  destruct j as [|j]; [lia|]. simpl.
  destruct (Ascii.eqb a c); [intros [= <-]; reflexivity|].
  destruct (sfind c s) as [k'|] eqn:E; simpl; [|discriminate].
  intros [= <-] Hlt. rewrite (IH k' j eq_refl); [reflexivity | lia].
Qed.

Lemma sfind_app_None (c : ascii) (u v : string) :
  sfind c (u +:+ v) = None -> sfind c u = None /\ sfind c v = None.
Proof.
  induction u as [|a u IH]; [rewrite app_empty; auto|].
  rewrite app_String. simpl.
  destruct (Ascii.eqb a c); [discriminate|].
  destruct (sfind c (u +:+ v)); simpl; [discriminate|].
  intros _. destruct (IH eq_refl) as [-> ->]. auto.
Qed.

Lemma get_sdrop (i k : nat) (s : string) :
  String.get k (sdrop i s) = String.get (i + k) s.
Proof.
  revert s; induction i as [|i IH]; intros s; simpl; [reflexivity|].
  destruct s as [|a s]; [now destruct k | apply IH].
Qed.

Lemma get_stake (q m : nat) (s : string) :
  (m < q)%nat -> String.get m (stake q s) = String.get m s.
Proof.
  revert m s; induction q as [|q IH]; intros m s Hlt; [lia|].
  destruct s as [|a s]; simpl; [reflexivity|].
  destruct m as [|m]; [reflexivity | apply IH; lia].
Qed.

Lemma get_lt (m : nat) (s : string) (c : ascii) :
  String.get m s = Some c -> (m < String.length s)%nat.
Proof.
  revert m; induction s as [|a s IH]; intros m; simpl; [discriminate|].
  destruct m as [|m]; [lia|]. intros Hg. specialize (IH m Hg). lia.
Qed.

Lemma get_decompose (m : nat) (s : string) (c : ascii) :
  String.get m s = Some c -> s = stake m s +:+ String c (sdrop (S m) s).
Proof.
  revert m; induction s as [|a s IH]; intros m; simpl; [discriminate|].
  destruct m as [|m]; [intros [= ->]; reflexivity|].
  intros Hg. simpl. rewrite app_String. f_equal. apply IH, Hg.
Qed.

Lemma sfind_last_get (c : ascii) (s : string) (p : nat) :
  sfind_last c s = Some p -> String.get p s = Some c.
Proof.
  revert p; induction s as [|a s IH]; intros p; simpl; [discriminate|].
  destruct (sfind_last c s) as [k|].
  - intros [= <-]. apply IH. reflexivity.
  - destruct (Ascii.eqb_spec a c) as [->|Hne]; [intros [= <-]; reflexivity | discriminate].
Qed.

Lemma sfind_last_ge (c : ascii) (s : string) (m : nat) :
  String.get m s = Some c -> exists p, sfind_last c s = Some p /\ (m <= p)%nat.
Proof.
  revert m; induction s as [|a s IH]; intros m; simpl; [discriminate|].
  destruct m as [|m].
  - intros [= ->]. destruct (sfind_last c s) as [k|]; [exists (S k); split; [reflexivity | lia]|].
    rewrite Ascii.eqb_refl. exists O. split; [reflexivity | lia].
  - intros Hg. destruct (IH m Hg) as (p & -> & Hle).
    exists (S p). split; [reflexivity | lia].
Qed.

(** *** split *)

Lemma split_not_nil (c : ascii) (s : string) : split c s <> [].
Proof.
  induction s as [|a s IH]; simpl; [discriminate|].
  destruct (Ascii.eqb a c); [discriminate|].
  destruct (split c s); [contradiction | discriminate].
Qed.

Lemma split_no_sep (c : ascii) (s : string) :
  sfind c s = None -> split c s = [s].
Proof.
  induction s as [|a s IH]; simpl; [reflexivity|].
  destruct (Ascii.eqb a c); [discriminate|].
  destruct (sfind c s); simpl; [discriminate|].
  intros _. rewrite (IH eq_refl). reflexivity.
Qed.

Lemma split_first (c : ascii) (s : string) (j : nat) :
  sfind c s = Some j -> split c s = stake j s :: split c (sdrop (S j) s).
Proof.
  revert j; induction s as [|a s IH]; intros j; simpl; [discriminate|].
  destruct (Ascii.eqb a c); [intros [= <-]; reflexivity|].
  destruct (sfind c s) as [j'|]; simpl; [|discriminate].
  intros [= <-]. rewrite (IH j' eq_refl). reflexivity.
Qed.

Lemma split_app (c : ascii) (u v : string) :
  split c (u +:+ String c v) = (split c u ++ split c v)%list.
Proof.
  induction u as [|a u IH]; [rewrite app_empty|rewrite app_String]; simpl.
  - rewrite Ascii.eqb_refl. reflexivity.
  - destruct (Ascii.eqb a c); [rewrite IH; reflexivity|].
    rewrite IH. destruct (split c u) as [|h t] eqn:E; [now apply split_not_nil in E|].
    reflexivity.
Qed.

Lemma split_pieces_without (e c : ascii) (s : string) :
  sfind e s = None -> Forall (fun piece => sfind e piece = None) (split c s).
Proof.
  induction s as [|a s IH]; simpl; [intros _; repeat constructor|].
  destruct (Ascii.eqb a e) eqn:Eae; [discriminate|].
  destruct (sfind e s); simpl; [discriminate|]. intros _.
  specialize (IH eq_refl).
  destruct (Ascii.eqb a c); [constructor; [reflexivity | exact IH]|].
  destruct (split c s) as [|h t]; [repeat constructor; simpl; now rewrite Eae|].
  inversion IH as [|? ? Hh Ht]; subst. constructor; [|exact Ht].
  simpl. rewrite Eae, Hh. reflexivity.
Qed.

(** *** The primitives at indices inside the string *)

Lemma indexOf_nat (s : string) (c : ascii) (i : nat) :
  (i <= String.length s)%nat ->
  indexOf s c (Z.of_nat i) = pos_or_minus1 i (sfind c (sdrop i s)).
Proof.
  intros Hle. unfold indexOf, len.
  replace (Z.to_nat (Z.min (Z.max 0 (Z.of_nat i)) (Z.of_nat (String.length s)))) with i by lia.
  reflexivity.
Qed.

Lemma slice_nat (s : string) (a b : nat) :
  (a <= b)%nat -> (b <= String.length s)%nat ->
  slice s (Z.of_nat a) (Z.of_nat b) = stake (b - a) (sdrop a s).
Proof.
  intros Hab Hb. unfold slice, slice_index, len.
  destruct (Z.ltb_spec (Z.of_nat a) 0) as [?|_]; [lia|].
  destruct (Z.ltb_spec (Z.of_nat b) 0) as [?|_]; [lia|].
  f_equal; [|f_equal]; lia.
Qed.

Lemma lastIndexOf_nat (s : string) (c : ascii) (q : nat) :
  lastIndexOf s c (Z.of_nat q) = pos_or_minus1 O (sfind_last c (stake (S q) s)).
Proof.
  unfold lastIndexOf. replace (Z.to_nat (Z.max 0 (Z.of_nat q))) with q by lia.
  reflexivity.
Qed.

End JSFacts.

(** ** The utilities *)

Module UtilsFacts.
Import JS JSFacts Utils.

Section AcceptParams.
Context `{NumLib}.

Lemma store_piece_of_pair (piece : string) (k : nat) (r : AcceptParams) :
  sfind "=" piece = Some k ->
  store_piece piece r =
    let key := trim (stake k piece) in
    let value := trim (sdrop (S k) piece) in
    if String.eqb key "q" then set_quality (parseFloat value) r
    else set_param key value r.
Proof. intros E. unfold store_piece, parameter_pair. rewrite E. reflexivity. Qed.

Lemma store_pieces_without (pieces : list string) (r : AcceptParams) :
  Forall (fun piece => sfind "=" piece = None) pieces ->
  store_pieces pieces r = r.
Proof.
  unfold store_pieces. revert r.
  induction pieces as [|p ps IH]; intros r Hall; [reflexivity|].
  inversion Hall as [|? ? Hp Hps]; subst. simpl.
  unfold store_piece at 2, parameter_pair. rewrite Hp. apply IH, Hps.
Qed.

(** The loop body, read on the rest of the text from [index] on. *)
Lemma acceptParams_body_nat (str : string) (i : nat) (r : AcceptParams) :
  (i < String.length str)%nat ->
  acceptParams_body str {| index := Z.of_nat i; ret := r |} =
    let rest := sdrop i str in
    match sfind "=" rest with
    | None => Break r
    | Some k =>
        match sfind ";" rest with
        | None =>
            Continue {| index := Z.of_nat (S (String.length str));
                        ret := store_piece rest r |}
        | Some j =>
            if (j <? k)%nat then
              Continue {| index := pos_or_minus1 O (sfind_last ";" (stake (i + k) str)) + 1;
                          ret := r |}
            else
              Continue {| index := Z.of_nat (S (i + j));
                          ret := store_piece (stake j rest) r |}
        end
    end.
Proof.
  intros Hi. unfold acceptParams_body. cbn [index ret].
  rewrite !indexOf_nat by lia. cbv zeta.
  destruct (sfind "=" (sdrop i str)) as [k|] eqn:Ek; [|reflexivity].
  pose proof (sfind_lt _ _ _ Ek) as Hk. rewrite length_sdrop in Hk.
  cbn [pos_or_minus1].
  destruct (Z.eqb_spec (Z.of_nat (i + k)) (-1)) as [?|_]; [lia|].
  destruct (sfind ";" (sdrop i str)) as [j|] eqn:Ej; cbn [pos_or_minus1].
  - pose proof (sfind_lt _ _ _ Ej) as Hj. rewrite length_sdrop in Hj.
    destruct (Z.eqb_spec (Z.of_nat (i + j)) (-1)) as [?|_]; [lia|].
    destruct (Nat.ltb_spec j k) as [Hjk|Hjk].
    + destruct (Z.gtb_spec (Z.of_nat (i + k)) (Z.of_nat (i + j))) as [_|?]; [|lia].
      replace (Z.of_nat (i + k) - 1)%Z with (Z.of_nat (i + k - 1)) by lia.
      rewrite lastIndexOf_nat.
      replace (S (i + k - 1)) with (i + k)%nat by lia. reflexivity.
    + destruct (Z.gtb_spec (Z.of_nat (i + k)) (Z.of_nat (i + j))) as [?|_]; [lia|].
      assert (k <> j) as Hne.
      { intros ->. apply sfind_get in Ek, Ej. rewrite Ek in Ej. discriminate. }
      rewrite (store_piece_of_pair (stake j (sdrop i str)) k)
        by (apply sfind_stake_after; [exact Ek | lia]).
      cbv zeta.
      replace (Z.of_nat (i + k) + 1)%Z with (Z.of_nat (S (i + k))) by lia.
      rewrite !slice_nat by lia.
      rewrite stake_stake by lia. rewrite sdrop_stake, sdrop_sdrop.
      replace (i + k - i)%nat with k by lia.
      replace (i + j - S (i + k))%nat with (j - S k)%nat by lia.
      replace (i + S k)%nat with (S (i + k)) by lia.
      replace (Z.of_nat (i + j) + 1)%Z with (Z.of_nat (S (i + j))) by lia.
      reflexivity.
  - destruct (Z.eqb_spec (-1) (-1)) as [_|?]; [|lia].
    unfold len.
    destruct (Z.gtb_spec (Z.of_nat (i + k)) (Z.of_nat (String.length str))) as [?|_]; [lia|].
    rewrite (store_piece_of_pair (sdrop i str) k) by exact Ek.
    cbv zeta.
    replace (Z.of_nat (i + k) + 1)%Z with (Z.of_nat (S (i + k))) by lia.
    rewrite !slice_nat by lia.
    rewrite sdrop_sdrop.
    replace (i + k - i)%nat with k by lia.
    replace (i + S k)%nat with (S (i + k)) by lia.
    rewrite (stake_all (String.length str - S (i + k))) by (rewrite length_sdrop; lia).
    replace (Z.of_nat (String.length str) + 1)%Z with (Z.of_nat (S (String.length str))) by lia.
    reflexivity.
Qed.

(** Where the loop jumps to when the next [=] lies beyond the next [;]:
    just after a [;] that is at or after that one and still before the [=]. *)
Lemma jump_target (str : string) (i j k : nat) :
  sfind ";" (sdrop i str) = Some j -> (j < k)%nat ->
  exists p, sfind_last ";" (stake (i + k) str) = Some p
            /\ (i + j <= p < i + k)%nat
            /\ String.get p str = Some ";"%char.
Proof.
  intros Ej Hjk.
  apply sfind_get in Ej. rewrite get_sdrop in Ej.
  assert (String.get (i + j) (stake (i + k) str) = Some ";"%char) as Hg
    by (rewrite get_stake by lia; exact Ej).
  destruct (sfind_last_ge _ _ _ Hg) as (p & Ep & Hle).
  exists p. split; [exact Ep|].
  apply sfind_last_get in Ep.
  pose proof (get_lt _ _ _ Ep) as Hp. rewrite length_stake in Hp.
  split; [lia|]. rewrite get_stake in Ep by lia. exact Ep.
Qed.

(** Each run of the body either leaves the loop or moves [index] forward. *)
Lemma acceptParams_body_progress (str : string) (st : LoopState) :
  (0 <= index st)%Z -> acceptParams_cond str st = true ->
  match acceptParams_body str st with
  | Break _ => True
  | Continue st' => (index st < index st')%Z
  end.
Proof.
  destruct st as [ix r]. unfold acceptParams_cond, len. cbn [index].
  intros H0 Hc. apply Z.ltb_lt in Hc.
  replace ix with (Z.of_nat (Z.to_nat ix)) by lia.
  rewrite acceptParams_body_nat by lia. cbv zeta.
  destruct (sfind "=" _) as [k|] eqn:Ek; [|exact I].
  pose proof (sfind_lt _ _ _ Ek) as Hk. rewrite length_sdrop in Hk.
  destruct (sfind ";" _) as [j|] eqn:Ej; cbn [index]; [|lia].
  destruct (Nat.ltb_spec j k) as [Hjk|Hjk]; cbn [index]; [|lia].
  destruct (jump_target _ _ _ _ Ej Hjk) as (p & -> & Hp & _).
  cbn [pos_or_minus1]. lia.
Qed.

Lemma acceptParams_loop_unfold (fuel : nat) (str : string) (st : LoopState) (n : nat) :
  acceptParams_loop fuel str st n =
    if acceptParams_cond str st then
      match fuel with
      | O => None
      | S fuel' =>
          match acceptParams_body str st with
          | Break r => Some (r, S n)
          | Continue st' => acceptParams_loop fuel' str st' (S n)
          end
      end
    else Some (ret st, n).
Proof. destruct fuel; reflexivity. Qed.

Lemma store_pieces_empty_rest (r : AcceptParams) :
  store_pieces (split ";" EmptyString) r = r.
Proof. reflexivity. Qed.

(** The loop, started at [index] with enough fuel, stores exactly the
    parameters of the pieces of the text from [index] on, and runs its body
    at most once per remaining character. *)
Lemma acceptParams_loop_spec (fuel : nat) :
  forall (str : string) (i : nat) (r : AcceptParams) (n : nat),
    (String.length str - i <= fuel)%nat ->
    exists m,
      acceptParams_loop fuel str {| index := Z.of_nat i; ret := r |} n
      = Some (store_pieces (split ";" (sdrop i str)) r, m)
      /\ (n <= m <= n + (String.length str - i))%nat.
Proof.
  induction fuel as [|fuel IH]; intros str i r n Hfuel;
    rewrite acceptParams_loop_unfold; unfold acceptParams_cond, len; cbn [index ret].
  - destruct (Z.ltb_spec (Z.of_nat i) (Z.of_nat (String.length str))) as [?|Hge]; [lia|].
    rewrite sdrop_all by lia. exists n. split; [reflexivity | lia].
  - destruct (Z.ltb_spec (Z.of_nat i) (Z.of_nat (String.length str))) as [Hlt|Hge].
    2:{ rewrite sdrop_all by lia. exists n. split; [reflexivity | lia]. }
    rewrite acceptParams_body_nat by lia. cbv zeta.
    destruct (sfind "=" (sdrop i str)) as [k|] eqn:Ek.
    2:{ exists (S n). split; [|lia].
        rewrite store_pieces_without; [reflexivity|].
        apply split_pieces_without, Ek. }
    pose proof (sfind_lt _ _ _ Ek) as Hk. rewrite length_sdrop in Hk.
    destruct (sfind ";" (sdrop i str)) as [j|] eqn:Ej.
    + pose proof (sfind_lt _ _ _ Ej) as Hj. rewrite length_sdrop in Hj.
      destruct (Nat.ltb_spec j k) as [Hjk|Hjk].
      * destruct (jump_target _ _ _ _ Ej Hjk) as (p & -> & Hp & Hg).
        cbn [pos_or_minus1].
        replace (Z.of_nat (0 + p) + 1)%Z with (Z.of_nat (S p)) by lia.
        destruct (IH str (S p) r (S n)) as (m & -> & Hm); [lia|].
        exists m. split; [|lia]. f_equal. f_equal.
        (* the pieces skipped hold no [=] *)
        assert (String.get (p - i) (sdrop i str) = Some ";"%char) as Hg'
          by (rewrite get_sdrop; replace (i + (p - i))%nat with p by lia; exact Hg).
        rewrite (get_decompose _ _ _ Hg') at 1.
        rewrite split_app. unfold store_pieces. rewrite foldl_app.
        fold (store_pieces (split ";" (stake (p - i) (sdrop i str))) r).
        rewrite store_pieces_without
          by (apply split_pieces_without, (sfind_stake_before _ _ k); [exact Ek | lia]).
        rewrite sdrop_sdrop. replace (i + S (p - i))%nat with (S p) by lia.
        reflexivity.
      * destruct (IH str (S (i + j)) (store_piece (stake j (sdrop i str)) r) (S n))
          as (m & -> & Hm); [lia|].
        exists m. split; [|lia]. f_equal. f_equal.
        rewrite (split_first _ _ _ Ej).
        rewrite sdrop_sdrop. replace (i + S j)%nat with (S (i + j)) by lia.
        reflexivity.
    + destruct (IH str (S (String.length str)) (store_piece (sdrop i str) r) (S n))
        as (m & -> & Hm); [lia|].
      exists m. split; [|lia]. f_equal. f_equal.
      rewrite (sdrop_all (S (String.length str))) by lia.
      rewrite (split_no_sep _ _ Ej). reflexivity.
Qed.

Lemma last_cons_some {A} (x : A) (l : list A) :
  last (x :: l) = match last l with Some y => Some y | None => Some x end.
Proof.
  revert x; induction l as [|y l IH]; intros x; [reflexivity|].
  change (last (x :: y :: l)) with (last (y :: l)).
  rewrite IH. now destruct (last l).
Qed.

Lemma spec_quality_cons (start : Num) (kv : string * string) (pairs : list (string * string)) :
  spec_quality start (kv :: pairs)
  = spec_quality (if is_q kv then parseFloat (snd kv) else start) pairs.
Proof.
  unfold spec_quality. simpl. destruct (is_q kv); [|reflexivity].
  rewrite last_cons_some. now destruct (last (List.filter is_q pairs)).
Qed.

Lemma stored_params_cons (start : gmap string string) (kv : string * string)
    (pairs : list (string * string)) :
  stored_params start (kv :: pairs)
  = stored_params (if is_q kv then start
                   else object_set (fst kv) (snd kv) start) pairs.
Proof. unfold stored_params. simpl. now destruct (is_q kv). Qed.

(** Storing the pieces one after the other gives the quality that the
    specification reads off the list of pairs, and the parameters that the
    assignments leave. *)
Lemma store_pieces_spec (pieces : list string) (r : AcceptParams) :
  store_pieces pieces r
  = {| value := value r;
       quality := spec_quality (quality r) (omap parameter_pair pieces);
       params := stored_params (params r) (omap parameter_pair pieces) |}.
Proof.
  unfold store_pieces. revert r.
  induction pieces as [|p ps IH]; intros r; [destruct r; reflexivity|].
  simpl. rewrite IH. unfold store_piece.
  destruct (parameter_pair p) as [kv|]; [|reflexivity].
  rewrite spec_quality_cons, stored_params_cons.
  unfold store_pair. now destruct (is_q kv).
Qed.

Lemma sfind_at_get (c : ascii) (s : string) :
  String.get 0 s = Some c -> sfind c s = Some O.
Proof.
  destruct s as [|a s]; simpl; [discriminate|].
  intros [= ->]. rewrite Ascii.eqb_refl. reflexivity.
Qed.

Lemma acceptParams_init_index (str : string) :
  index (acceptParams_init str)
  = Z.of_nat (default (String.length str) (sfind ";" str))
  /\ ret (acceptParams_init str)
     = {| value := trim (before_first_semicolon str);
          quality := num_of_Z 1; params := ∅ |}.
Proof.
  unfold acceptParams_init, before_first_semicolon.
  change 0%Z with (Z.of_nat O).
  rewrite (indexOf_nat str ";" O) by lia. cbn [sdrop]. cbv zeta. cbn [index ret].
  destruct (sfind ";" str) as [k|] eqn:Ek; cbn [pos_or_minus1 default].
  - pose proof (sfind_lt _ _ _ Ek) as Hk.
    destruct (Z.eqb_spec (Z.of_nat (0 + k)) (-1)) as [?|_]; [lia|].
    split; [f_equal; lia|].
    rewrite (slice_nat str O (0 + k)) by lia. cbn [sdrop].
    replace (0 + k - 0)%nat with k by lia. reflexivity.
  - destruct (Z.eqb_spec (-1) (-1)) as [_|?]; [|lia].
    split; [reflexivity|]. unfold len.
    rewrite (slice_nat str O (String.length str)) by lia. cbn [sdrop].
    rewrite stake_all by lia. reflexivity.
Qed.

(** [acceptParams] computes the result written without the loop, in at
    most one iteration per character. *)
Lemma acceptParams_counted_spec (str : string) :
  exists n, acceptParams_counted str = Some (result_acceptParams str, n)
            /\ (n <= String.length str)%nat.
Proof.
  unfold acceptParams_counted.
  destruct (acceptParams_init_index str) as [Hi Hr].
  destruct (acceptParams_init str) as [ix r0]. cbn [index ret] in Hi, Hr. subst ix.
  destruct (acceptParams_loop_spec (String.length str) str
              (default (String.length str) (sfind ";" str)) r0 O)
    as (n & En & Hn); [lia|].
  exists n. split; [|lia]. rewrite En. f_equal. f_equal.
  rewrite store_pieces_spec. unfold result_acceptParams, spec_pairs. subst r0.
  cbn [value quality params].
  destruct (sfind ";" str) as [k|] eqn:Ek; cbn [default from_option id].
  - rewrite (split_first _ _ _ Ek). cbn [tail].
    assert (sfind ";" (sdrop k str) = Some O) as E0.
    { apply sfind_at_get. rewrite get_sdrop, Nat.add_0_r. apply sfind_get, Ek. }
    rewrite (split_first _ _ _ E0), sdrop_sdrop, Nat.add_1_r. reflexivity.
  - rewrite sdrop_all by lia. rewrite (split_no_sep _ _ Ek). reflexivity.
Qed.

(** X21.  [acceptParams] terminates on every string.  The scan index starts
    at a position of the string; each run of the loop body either leaves the
    loop or strictly increases the index; the body runs at most as many
    times as the string has characters; and the result is the one written
    without the loop: the value is the trimmed text before the first [;],
    the quality is [1] unless a parameter [q] overrides it, and every other
    key=value pair is assigned to its key in [params], in the order of the
    text. *)
Theorem acceptParams_terminates_linear (str : string) :
  (0 <= index (acceptParams_init str) <= len str)%Z
  /\ (forall st : LoopState,
        (0 <= index st)%Z -> acceptParams_cond str st = true ->
        match acceptParams_body str st with
        | Break _ => True
        | Continue st' => (index st < index st')%Z
        end)
  /\ (exists n : nat,
        acceptParams_counted str = Some (result_acceptParams str, n)
        /\ (n <= String.length str)%nat)
  /\ acceptParams str = Some (result_acceptParams str).
Proof.
  split.
  { destruct (acceptParams_init_index str) as [-> _]. unfold len.
    destruct (sfind ";" str) as [k|] eqn:Ek; cbn [default from_option id]; [|lia].
    apply sfind_lt in Ek. lia. }
  split; [exact (acceptParams_body_progress str)|].
  destruct (acceptParams_counted_spec str) as (n & En & Hn).
  split; [exists n; split; [exact En | exact Hn]|].
  unfold acceptParams. rewrite En. reflexivity.
Qed.

(** C7.  The code at the text [text/html;__proto__=x].  The text has one
    key=value pair after the first [;], and its key is not [q]; read as the
    claim has it, the pair belongs in [params].  [acceptParams] returns no
    parameter at all: the assignment [ret.params[key] = value] stores nothing
    under the key [__proto__]. *)
Theorem acceptParams_drops_proto_pair :
  spec_pairs "text/html;__proto__=x" = [("__proto__", "x")]
  /\ params (spec_acceptParams "text/html;__proto__=x") = {[ "__proto__" := "x" ]}
  /\ acceptParams "text/html;__proto__=x"
     = Some {| value := "text/html"; quality := num_of_Z 1; params := ∅ |}.
Proof.
  split; [reflexivity|]. split; [reflexivity|].
  destruct (acceptParams_counted_spec "text/html;__proto__=x") as (n & En & _).
  unfold acceptParams. rewrite En. reflexivity.
Qed.

End AcceptParams.

Section Compile.
Context `{NumLib} `{ETagLib} `{QueryLib} `{!ProxyAddrLib}.

(** The four outcomes of the [switch] of [compileETag], by case. *)
Lemma compileETag_cases (val : Setting ETagFn) :
  compileETag val =
    match val with
    | SFun f => Ret (Some f)
    | SBool true => Ret (Some wetag)
    | SBool false => Ret None
    | SStr s =>
        if String.eqb s "weak" then Ret (Some wetag)
        else if String.eqb s "strong" then Ret (Some etag)
        else Throw (TypeError ("unknown value for etag function: " +:+ s))
    end.
Proof.
  destruct val as [[|]|s|f]; reflexivity.
Qed.

Lemma compileQueryParser_cases (val : Setting QueryFn) :
  compileQueryParser val =
    match val with
    | SFun f => Ret (Some f)
    | SBool true => Ret (Some querystring_parse)
    | SBool false => Ret None
    | SStr s =>
        if String.eqb s "simple" then Ret (Some querystring_parse)
        else if String.eqb s "extended" then Ret (Some parseExtendedQueryString)
        else Throw (TypeError ("unknown value for query parser function: " +:+ s))
    end.
Proof.
  destruct val as [[|]|s|f]; reflexivity.
Qed.

Lemma compileETag_throws (val : Setting ETagFn) :
  throws (compileETag val) = negb (is_function val || etag_recognized val)
  /\ is_TypeError (compileETag val) = throws (compileETag val).
Proof.
  rewrite compileETag_cases. unfold etag_recognized.
  destruct val as [[|]|s|f]; simpl; try (split; reflexivity).
  destruct (String.eqb s "weak"); [split; reflexivity|].
  destruct (String.eqb s "strong"); split; reflexivity.
Qed.

Lemma compileQueryParser_throws (val : Setting QueryFn) :
  throws (compileQueryParser val) = negb (is_function val || query_recognized val)
  /\ is_TypeError (compileQueryParser val) = throws (compileQueryParser val).
Proof.
  rewrite compileQueryParser_cases. unfold query_recognized.
  destruct val as [[|]|s|f]; simpl; try (split; reflexivity).
  destruct (String.eqb s "simple"); [split; reflexivity|].
  destruct (String.eqb s "extended"); split; reflexivity.
Qed.

(** C6 (as amended).  [compileETag] and [compileQueryParser] throw, and then
    a [TypeError], exactly when the argument is neither a function nor one
    of the recognized values; a function argument is returned as it is;
    [true], ['weak'] and ['strong'] give the weak, weak and strong ETag
    generator, [true], ['simple'] and ['extended'] give [querystring.parse],
    [querystring.parse] and the extended parser; [false] gives [undefined],
    not a function. *)
Theorem compile_settings_table :
  (forall val : Setting ETagFn,
     throws (compileETag val) = negb (is_function val || etag_recognized val)
     /\ is_TypeError (compileETag val) = throws (compileETag val))
  /\ (forall val : Setting QueryFn,
     throws (compileQueryParser val) = negb (is_function val || query_recognized val)
     /\ is_TypeError (compileQueryParser val) = throws (compileQueryParser val))
  /\ (forall f, compileETag (SFun f) = Ret (Some f))
  /\ (forall f, compileQueryParser (SFun f) = Ret (Some f))
  /\ compileETag (SBool true) = Ret (Some wetag)
  /\ compileETag (SStr "weak") = Ret (Some wetag)
  /\ compileETag (SStr "strong") = Ret (Some etag)
  /\ compileETag (SBool false) = Ret None
  /\ compileQueryParser (SBool true) = Ret (Some querystring_parse)
  /\ compileQueryParser (SStr "simple") = Ret (Some querystring_parse)
  /\ compileQueryParser (SStr "extended") = Ret (Some parseExtendedQueryString)
  /\ compileQueryParser (SBool false) = Ret None.
Proof.
  split; [exact compileETag_throws|].
  split; [exact compileQueryParser_throws|].
  repeat split; intros; reflexivity.
Qed.

(** C9.  For [false] both functions return [undefined] and do not throw;
    every value that is neither a function nor recognized is rejected with a
    [TypeError]. *)
Theorem compile_false_disables :
  compileETag (SBool false) = Ret None
  /\ compileQueryParser (SBool false) = Ret None
  /\ (forall val : Setting ETagFn,
        is_TypeError (compileETag val) = negb (is_function val || etag_recognized val))
  /\ (forall val : Setting QueryFn,
        is_TypeError (compileQueryParser val)
        = negb (is_function val || query_recognized val)).
Proof.
  split; [reflexivity|]. split; [reflexivity|].
  split; intros val.
  - destruct (compileETag_throws val) as [Ht He]. congruence.
  - destruct (compileQueryParser_throws val) as [Ht He]. congruence.
Qed.

(** C8.  [compileTrust]: a function is returned unchanged; [true] gives a
    predicate that holds of every address and index; a number [n] gives the
    predicate [i < n] on the hop index; a string is split at the commas and
    every entry trimmed, and the list is handed to [proxyaddr.compile]. *)
Theorem compileTrust_cases :
  (forall f, compileTrust (TFun f) = Ret f)
  /\ (exists p, compileTrust (TBool true) = Ret p /\ forall a i, p a i = true)
  /\ (forall n, exists p,
        compileTrust (TNum n) = Ret p /\ forall a i, p a i = num_lt i n)
  /\ (forall s,
        compileTrust (TStr s) = proxyaddr_compile (map JS.trim (JS.split "," s))).
Proof.
  split; [reflexivity|].
  split; [eexists; split; [reflexivity | reflexivity]|].
  split; [intros n; eexists; split; [reflexivity | reflexivity]|].
  reflexivity.
Qed.

End Compile.

(** C6, as stated, fails at [false]: it is a recognized value, and yet
    neither an ETag generator nor a parser is returned for it. *)
Lemma compile_false_returns_no_function :
  ~ (forall val : Setting (@ETagFn Standin.etag_lib),
       etag_recognized val = true -> exists g, compileETag val = Ret (Some g))
  /\ ~ (forall val : Setting (@QueryFn Standin.query_lib),
       query_recognized val = true ->
       exists g, compileQueryParser val = Ret (Some g)).
Proof.
  split; intros Hall.
  - destruct (Hall (SBool false) eq_refl) as [g Hg]. discriminate Hg.
  - destruct (Hall (SBool false) eq_refl) as [g Hg]. discriminate Hg.
Qed.

End UtilsFacts.

(** ** The view module *)

Module ViewFacts.
Import View.

Section Resolve.
Context {Engine : Type} `{PathLib} `{FsLib}.

Abbreviation World := (@World Engine).

Lemma add_trace_nil (w : World) : add_trace [] w = w.
Proof. destruct w as [h t]. unfold add_trace; simpl. now rewrite app_nil_r. Qed.

Lemma add_trace_app (evs1 evs2 : list Event) (w : World) :
  add_trace evs2 (add_trace evs1 w) = add_trace (evs1 ++ evs2) w.
Proof. unfold add_trace; simpl. now rewrite app_assoc. Qed.

Lemma tryStat_run (path : string) (w : World) :
  tryStat path w
  = (add_trace [EvStat path] w,
     Ret (match statSync path with Ret st => Some st | Throw _ => None end)).
Proof. unfold tryStat, mbnd, emit. simpl. now destruct (statSync path). Qed.

Lemma stat_isFile_tryStat (path : string) :
  stat_isFile (match statSync path with Ret st => Some st | Throw _ => None end)
  = is_regular_file path.
Proof. unfold is_regular_file. now destruct (statSync path). Qed.

(** [resolve], run: which paths it stats and what it returns. *)
Lemma resolve_run (ext dir file : string) (w : World) :
  resolve ext dir file w
  = (add_trace (map EvStat (stats_until (candidates ext dir file))) w,
     Ret (List.find is_regular_file (candidates ext dir file))).
Proof.
  unfold resolve, candidates, mbnd. rewrite tryStat_run, stat_isFile_tryStat.
  cbn [stats_until List.find map].
  destruct (is_regular_file (join [dir; file])); [reflexivity|].
  rewrite tryStat_run, stat_isFile_tryStat, add_trace_app.
  destruct (is_regular_file _); reflexivity.
Qed.

(** C2.  [resolve] has exactly two candidate paths, [join(dir, file)] and
    then [join(dir, basename(file, ext), 'index' + ext)]; it stats them in
    that order, stops at the first one that is a regular file and returns
    it; when neither is a regular file it returns [undefined]. *)
Theorem resolve_two_candidates (ext dir file : string) (w : World) :
  candidates ext dir file
    = [join [dir; file]; join [dir; basename_ext file ext; "index" +:+ ext]]
  /\ fst (resolve ext dir file w)
     = add_trace (map EvStat (stats_until (candidates ext dir file))) w
  /\ snd (resolve ext dir file w)
     = Ret (List.find is_regular_file (candidates ext dir file))
  /\ (Forall (fun p => is_regular_file p = false) (candidates ext dir file) ->
      snd (resolve ext dir file w) = Ret None).
Proof.
  rewrite resolve_run. cbn [fst snd].
  split; [reflexivity|]. split; [reflexivity|]. split; [reflexivity|].
  intros Hall. f_equal. unfold candidates in *.
  inversion Hall as [|? ? H1 Hall']; subst. inversion Hall' as [|? ? H2 _]; subst.
  cbn [List.find]. rewrite H1, H2. reflexivity.
Qed.

(** *** lookup *)

Lemma find_regular_nonempty (ext dir file p : string) :
  (forall segments, join segments <> EmptyString) ->
  List.find is_regular_file (candidates ext dir file) = Some p ->
  JS.truthy p = true.
Proof.
  intros Hjoin. unfold candidates. cbn [List.find].
  destruct (is_regular_file _).
  - intros [= <-]. specialize (Hjoin [dir; file]). now destruct (join _).
  - destruct (is_regular_file _); [|discriminate].
    intros [= <-].
    specialize (Hjoin [dir; basename_ext file ext; "index" +:+ ext]).
    now destruct (join _).
Qed.

Lemma stats_until_miss (paths : list string) :
  List.find is_regular_file paths = None -> stats_until paths = paths.
Proof.
  induction paths as [|p ps IH]; simpl; [reflexivity|].
  destruct (is_regular_file p); [discriminate|]. intros E. now rewrite IH.
Qed.

(** Once a truthy path is there, the loop does nothing more. *)
Lemma lookup_loop_found (ext name : string) (roots : list string) (p : string) (w : World) :
  JS.truthy p = true ->
  lookup_loop ext name roots (Some p) w = (w, Ret (Some p)).
Proof.
  intros Hp. destruct roots as [|r rs]; simpl; [reflexivity|].
  rewrite Hp. reflexivity.
Qed.

Lemma first_resolved_cons (ext name r : string) (rs : list string) :
  first_resolved ext name (r :: rs)
  = match resolve_root ext name r with
    | Some p => Some p
    | None => first_resolved ext name rs
    end.
Proof. unfold first_resolved. simpl. now destruct (resolve_root ext name r). Qed.

Lemma lookup_loop_run (ext name : string) (roots : list string) (w : World) :
  (forall segments, join segments <> EmptyString) ->
  lookup_loop ext name roots None w
  = (add_trace (map EvStat (root_stats ext name (consulted ext name roots))) w,
     Ret (first_resolved ext name roots)).
Proof.
  intros Hjoin. revert w. induction roots as [|r rs IH]; intros w.
  - unfold first_resolved, root_stats. cbn [lookup_loop consulted map concat omap head].
    unfold mret. rewrite add_trace_nil. reflexivity.
  - cbn [lookup_loop path_falsy]. unfold mbnd. rewrite resolve_run.
    fold (root_candidates ext name r). fold (resolve_root ext name r).
    rewrite first_resolved_cons. unfold root_stats. cbn [consulted map concat].
    destruct (resolve_root ext name r) as [p|] eqn:Er.
    + rewrite lookup_loop_found
        by (eapply find_regular_nonempty; [exact Hjoin | exact Er]).
      cbn [map concat]. rewrite app_nil_r. reflexivity.
    + rewrite IH, add_trace_app, <- map_app. reflexivity.
Qed.

(** [lookup] never throws and leaves the engine caches alone. *)
Lemma lookup_loop_ok (ext name : string) (roots : list string) :
  forall (path : option string) (w : World),
    exists stats p,
      lookup_loop ext name roots path w = (add_trace (map EvStat stats) w, Ret p).
Proof.
  induction roots as [|r rs IH]; intros path w.
  - exists [], path. simpl. now rewrite add_trace_nil.
  - cbn [lookup_loop]. destruct (path_falsy path).
    + unfold mbnd. rewrite resolve_run.
      destruct (IH (List.find is_regular_file
                      (candidates ext (dirname (path_resolve r name))
                                  (basename (path_resolve r name))))
                   (add_trace (map EvStat (stats_until (candidates ext
                      (dirname (path_resolve r name)) (basename (path_resolve r name))))) w))
        as (stats & p & ->).
      rewrite add_trace_app, <- map_app. eauto.
    + exists [], path. simpl. now rewrite add_trace_nil.
Qed.

Lemma lookup_ok (ext : string) (root : Root) (name : string) (w : World) :
  exists stats p, lookup ext root name w = (add_trace (map EvStat stats) w, Ret p).
Proof. apply lookup_loop_ok. Qed.

(** The vocabulary says what it should: with a first root that resolves,
    the result is its path and the roots after it are not consulted; with
    none, there is no result. *)
Lemma first_resolved_hit (ext name : string) (pre post : list string) (r p : string) :
  Forall (fun x => resolve_root ext name x = None) pre ->
  resolve_root ext name r = Some p ->
  first_resolved ext name (pre ++ r :: post) = Some p
  /\ consulted ext name (pre ++ r :: post) = (pre ++ [r])%list.
Proof.
  intros Hpre Hr. induction Hpre as [|x pre Hx _ IH].
  - rewrite !app_nil_l, first_resolved_cons. cbn [consulted]. rewrite Hr. auto.
  - rewrite <- !app_comm_cons, first_resolved_cons. cbn [consulted]. rewrite Hx.
    destruct IH as [-> ->]. auto.
Qed.

Lemma first_resolved_miss (ext name : string) (roots : list string) :
  Forall (fun x => resolve_root ext name x = None) roots ->
  first_resolved ext name roots = None.
Proof.
  induction 1 as [|x roots Hx _ IH]; [reflexivity|].
  rewrite first_resolved_cons, Hx. exact IH.
Qed.

(** C3.  [lookup] goes through the roots in order and returns the path
    that the first root resolves to; only the roots up to that one are
    consulted, so only their candidates are stat'ed; when no root resolves,
    the result is [undefined].  (node's [join] never returns the empty
    string.) *)
Theorem lookup_first_root (ext name : string) (root : Root) (w : World) :
  (forall segments, join segments <> EmptyString) ->
  lookup ext root name w
  = (add_trace
       (map EvStat (root_stats ext name (consulted ext name (concat_root root)))) w,
     Ret (first_resolved ext name (concat_root root)))
  /\ (forall pre r post p,
        concat_root root = (pre ++ r :: post)%list ->
        Forall (fun x => resolve_root ext name x = None) pre ->
        resolve_root ext name r = Some p ->
        first_resolved ext name (concat_root root) = Some p
        /\ consulted ext name (concat_root root) = (pre ++ [r])%list)
  /\ (Forall (fun x => resolve_root ext name x = None) (concat_root root) ->
      first_resolved ext name (concat_root root) = None).
Proof.
  intros Hjoin. split; [unfold lookup; now apply lookup_loop_run|].
  split.
  - intros pre r post p -> Hpre Hr. now apply first_resolved_hit.
  - apply first_resolved_miss.
Qed.

End Resolve.

Section Constructor.
Context {Engine : Type} `{PathLib} `{FsLib} (require : @Require Engine).

Abbreviation new_View := (@View.new_View Engine _ _ require).
Abbreviation load_engine := (@View.load_engine Engine require).
Abbreviation engine_loaded := (@View.engine_loaded Engine _ require).

Lemma validation_fails_false (name : string) (opts : Options) :
  validation_fails name opts = false ->
  JS.truthy (view_ext name opts) = true.
Proof.
  unfold validation_fails, view_ext.
  destruct (JS.truthy (extname name)) eqn:E; [intros _; exact E|].
  simpl. unfold defaultEngine_falsy, ext_of_defaultEngine.
  destruct (opt_defaultEngine opts) as [d|]; [|discriminate].
  destruct d as [|c d]; [discriminate|]. intros _. simpl.
  destruct (Ascii.eqb_spec c "."%char) as [->|Hne]; [reflexivity|].
  destruct c as [[] [] [] [] [] [] [] []]; reflexivity.
Qed.

(** The constructor, case by case. *)
Lemma new_View_invalid (name : string) (opts : Options) (w : World) :
  validation_fails name opts = true ->
  new_View name opts w
  = (w, Throw (Error "No default engine was specified and no extension was provided.")).
Proof.
  unfold validation_fails, View.new_View. intros ->. reflexivity.
Qed.

Lemma new_View_valid (name : string) (opts : Options) (w : World) :
  validation_fails name opts = false ->
  new_View name opts w
  = mbnd (read_engine (opt_engines opts) (view_ext name opts)) (fun cached =>
    mbnd (match cached with
          | Some _ => mret tt
          | None =>
              mbnd (do_require require (module_of_ext (view_ext name opts))) (fun m =>
                match __express m with
                | ExportFunction fn =>
                    write_engine (opt_engines opts) (view_ext name opts) fn
                | ExportOther =>
                    mthrow (Error ("Module " +:+ JS.dquote
                                     +:+ module_of_ext (view_ext name opts) +:+ JS.dquote
                                     +:+ " does not provide a view engine."))
                end)
          end) (fun _ =>
    mbnd (read_engine (opt_engines opts) (view_ext name opts)) (fun engine =>
    mbnd (lookup (view_ext name opts) (opt_root opts) (view_fileName name opts))
      (fun path => mret (built name opts engine path))))) w.
Proof.
  unfold validation_fails, View.new_View, view_ext, view_fileName, built, module_of_ext.
  intros ->. unfold view_ext.
  destruct (negb (JS.truthy (extname name))); reflexivity.
Qed.

(** A cached engine is used, and nothing is loaded. *)
Lemma new_View_hit (name : string) (opts : Options) (w : World) (fn : Engine) :
  validation_fails name opts = false ->
  cache_of w (opt_engines opts) !! view_ext name opts = Some fn ->
  exists stats path,
    new_View name opts w
    = (add_trace (map EvStat stats) w, Ret (built name opts (Some fn) path)).
Proof.
  intros Hv Hc. rewrite new_View_valid by exact Hv.
  unfold mbnd at 1. unfold read_engine at 1. rewrite Hc.
  unfold mbnd at 1. unfold mret at 1.
  unfold mbnd at 1. unfold read_engine at 1. rewrite Hc.
  destruct (lookup_ok (view_ext name opts) (opt_root opts) (view_fileName name opts) w)
    as (stats & path & E).
  unfold mbnd. rewrite E. exists stats, path. reflexivity.
Qed.

(** With no cached engine the module is required; when that throws, so does
    the constructor. *)
Lemma new_View_require_throws (name : string) (opts : Options) (w : World) (e : exn) :
  validation_fails name opts = false ->
  cache_of w (opt_engines opts) !! view_ext name opts = None ->
  require (module_of_ext (view_ext name opts)) = Throw e ->
  new_View name opts w
  = (add_trace [EvRequire (module_of_ext (view_ext name opts))] w, Throw e).
Proof.
  intros Hv Hc Hr. rewrite new_View_valid by exact Hv.
  unfold mbnd at 1. unfold read_engine at 1. rewrite Hc.
  unfold do_require, emit, mthrow, mbnd. rewrite Hr. reflexivity.
Qed.

(** A module without an [__express] function is rejected. *)
Lemma new_View_no_engine (name : string) (opts : Options) (w : World) (m : Module) :
  validation_fails name opts = false ->
  cache_of w (opt_engines opts) !! view_ext name opts = None ->
  require (module_of_ext (view_ext name opts)) = Ret m ->
  __express m = ExportOther ->
  new_View name opts w
  = (add_trace [EvRequire (module_of_ext (view_ext name opts))] w,
     Throw (Error ("Module " +:+ JS.dquote +:+ module_of_ext (view_ext name opts)
                     +:+ JS.dquote +:+ " does not provide a view engine."))).
Proof.
  intros Hv Hc Hr Hx. rewrite new_View_valid by exact Hv.
  unfold mbnd at 1. unfold read_engine at 1. rewrite Hc.
  unfold do_require, emit, mthrow, mret, mbnd. rewrite Hr. cbn beta iota.
  rewrite Hx. reflexivity.
Qed.

Lemma cache_of_store_engine (r : ref) (ext : string) (fn : Engine) (w : World) :
  cache_of (store_engine r ext fn w) r = <[ext := fn]> (cache_of w r).
Proof. unfold cache_of at 1, store_engine. simpl. now rewrite lookup_insert_eq. Qed.

(** An [__express] function is stored in the cache and used. *)
Lemma new_View_loaded (name : string) (opts : Options) (w : World) (m : Module)
    (fn : Engine) :
  validation_fails name opts = false ->
  cache_of w (opt_engines opts) !! view_ext name opts = None ->
  require (module_of_ext (view_ext name opts)) = Ret m ->
  __express m = ExportFunction fn ->
  exists stats path,
    new_View name opts w
    = (add_trace (map EvStat stats)
         (store_engine (opt_engines opts) (view_ext name opts) fn
            (add_trace [EvRequire (module_of_ext (view_ext name opts))] w)),
       Ret (built name opts (Some fn) path)).
Proof.
  intros Hv Hc Hr Hx. rewrite new_View_valid by exact Hv.
  unfold mbnd at 1. unfold read_engine at 1. rewrite Hc.
  unfold mbnd at 1. unfold mbnd at 1. unfold do_require, emit. unfold mbnd at 1.
  rewrite Hr. unfold mret at 1. rewrite Hx. unfold write_engine.
  unfold mbnd at 1. unfold read_engine.
  set (w1 := add_trace [EvRequire (module_of_ext (view_ext name opts))] w).
  fold (add_trace [EvRequire (module_of_ext (view_ext name opts))] w). fold w1.
  fold (store_engine (opt_engines opts) (view_ext name opts) fn w1).
  rewrite cache_of_store_engine, lookup_insert_eq.
  destruct (lookup_ok (view_ext name opts) (opt_root opts) (view_fileName name opts)
              (store_engine (opt_engines opts) (view_ext name opts) fn w1))
    as (stats & path & E).
  unfold mbnd. rewrite E. exists stats, path. reflexivity.
Qed.

Lemma required_app (evs1 evs2 : list Event) :
  required (evs1 ++ evs2) = (required evs1 ++ required evs2)%list.
Proof. unfold required. apply omap_app. Qed.

Lemma required_stats (stats : list string) : required (map EvStat stats) = [].
Proof. induction stats as [|p ps IH]; [reflexivity | exact IH]. Qed.

(** The extension of a view starts with a dot, so the module it names is
    the extension without it.  (node's [extname] returns the empty string or
    a string that starts with a dot.) *)
Lemma view_ext_dot (name : string) (opts : Options) :
  (forall n, extname n = EmptyString \/ exists r, extname n = String "." r) ->
  validation_fails name opts = false ->
  view_ext name opts = "." +:+ module_of_ext (view_ext name opts).
Proof.
  intros Hext Hv.
  assert (exists r, view_ext name opts = String "." r) as [r Er].
  { unfold validation_fails in Hv. unfold view_ext.
    destruct (Hext name) as [E|[r E]]; rewrite E in *; simpl in *.
    - unfold defaultEngine_falsy in Hv. unfold ext_of_defaultEngine.
      destruct (opt_defaultEngine opts) as [d|]; [|discriminate]. simpl.
      destruct d as [|c d]; [discriminate|]. simpl.
      destruct (Ascii.eqb_spec c "."%char) as [->|Hne]; [eexists; reflexivity|].
      destruct c as [[] [] [] [] [] [] [] []]; try (eexists; reflexivity).
    - eexists; reflexivity. }
  rewrite Er. unfold module_of_ext, JS.slice_from, JS.len.
  change 1%Z with (Z.of_nat 1).
  rewrite JSFacts.slice_nat by (simpl; lia).
  simpl String.length. simpl JS.sdrop. rewrite Nat.sub_succ, Nat.sub_0_r.
  rewrite JSFacts.stake_all by lia. reflexivity.
Qed.

(** C4.  The engine is bound lazily, by the extension.  When the cache has
    an entry for the extension of the view, that entry is the engine and no
    module is loaded.  When it has none, the module named by the extension
    without its dot is required, and nothing else: an [__express] export
    that is not a function makes the constructor throw an [Error], a
    function becomes the engine (and an exception of [require] itself is
    passed on). *)
Theorem engine_bound_lazily (name : string) (opts : Options) (w : World) :
  (forall n, extname n = EmptyString \/ exists r, extname n = String "." r) ->
  validation_fails name opts = false ->
  let ext := view_ext name opts in
  let w' := fst (new_View name opts w) in
  let r := snd (new_View name opts w) in
  ext = "." +:+ module_of_ext ext
  /\ match cache_of w (opt_engines opts) !! ext with
     | Some fn =>
         required (trace w') = required (trace w)
         /\ exists v, r = Ret v /\ v_engine v = Some fn /\ v_ext v = ext
     | None =>
         required (trace w') = (required (trace w) ++ [module_of_ext ext])%list
         /\ match require (module_of_ext ext) with
            | Ret m =>
                match __express m with
                | ExportFunction fn =>
                    exists v, r = Ret v /\ v_engine v = Some fn /\ v_ext v = ext
                | ExportOther =>
                    r = Throw (Error ("Module " +:+ JS.dquote +:+ module_of_ext ext
                                        +:+ JS.dquote
                                        +:+ " does not provide a view engine."))
                end
            | Throw e => r = Throw e
            end
     end.
Proof.
  intros Hext Hv ext w' r. split; [now apply view_ext_dot|].
  subst ext w' r.
  destruct (cache_of w (opt_engines opts) !! view_ext name opts) as [fn|] eqn:Hc.
  - destruct (new_View_hit name opts w fn Hv Hc) as (stats & path & ->).
    cbn [fst snd add_trace trace].
    rewrite required_app, required_stats, app_nil_r.
    split; [reflexivity|]. eexists; repeat split; reflexivity.
  - destruct (require (module_of_ext (view_ext name opts))) as [m|e] eqn:Hr.
    + destruct (__express m) as [fn|] eqn:Hx.
      * destruct (new_View_loaded name opts w m fn Hv Hc Hr Hx) as (stats & path & ->).
        cbn [fst snd add_trace store_engine trace].
        rewrite !required_app, required_stats, app_nil_r.
        split; [reflexivity|]. eexists; repeat split; reflexivity.
      * rewrite (new_View_no_engine name opts w m Hv Hc Hr Hx).
        cbn [fst snd add_trace trace]. rewrite required_app. split; reflexivity.
    + rewrite (new_View_require_throws name opts w e Hv Hc Hr).
      cbn [fst snd add_trace trace]. rewrite required_app. split; reflexivity.
Qed.

(** C5.  The constructor throws exactly when its checks fail: the name has
    no extension and there is no default engine, or the engine is not cached
    and loading its module gives no engine function.  Looking the file up
    never makes it throw.  In the first case the error is the one about the
    default engine, and the world is left as it was: no module was required
    and no path stat'ed. *)
Theorem new_View_throws_iff (name : string) (opts : Options) (w : World) :
  throws (snd (new_View name opts w))
  = validation_fails name opts
    || match cache_of w (opt_engines opts) !! view_ext name opts with
       | Some _ => false
       | None =>
           match load_engine (view_ext name opts) with
           | Some _ => false
           | None => true
           end
       end
  /\ (validation_fails name opts = true ->
      new_View name opts w
      = (w, Throw (Error "No default engine was specified and no extension was provided.")))
  /\ (extname name = EmptyString -> opt_defaultEngine opts = None ->
      validation_fails name opts = true).
Proof.
  split; [|split; [apply new_View_invalid|]].
  - destruct (validation_fails name opts) eqn:Hv.
    { rewrite new_View_invalid by exact Hv. reflexivity. }
    cbn [orb]. unfold View.load_engine.
    destruct (cache_of w (opt_engines opts) !! view_ext name opts) as [fn|] eqn:Hc.
    + destruct (new_View_hit name opts w fn Hv Hc) as (stats & path & ->). reflexivity.
    + destruct (require (module_of_ext (view_ext name opts))) as [m|e] eqn:Hr.
      * destruct (__express m) as [fn|] eqn:Hx.
        -- destruct (new_View_loaded name opts w m fn Hv Hc Hr Hx) as (stats & path & ->).
           reflexivity.
        -- rewrite (new_View_no_engine name opts w m Hv Hc Hr Hx). reflexivity.
      * rewrite (new_View_require_throws name opts w e Hv Hc Hr). reflexivity.
  - intros E1 E2. unfold validation_fails. rewrite E1, E2. reflexivity.
Qed.

(** What the constructor does to the store, in every case. *)
Lemma new_View_heap (name : string) (opts : Options) (w : World) :
  heap (fst (new_View name opts w))
  = match engine_loaded name opts w with
    | Some fn =>
        <[opt_engines opts :=
            <[view_ext name opts := fn]> (cache_of w (opt_engines opts))]> (heap w)
    | None => heap w
    end.
Proof.
  unfold View.engine_loaded, View.load_engine.
  destruct (validation_fails name opts) eqn:Hv.
  { rewrite new_View_invalid by exact Hv. reflexivity. }
  destruct (cache_of w (opt_engines opts) !! view_ext name opts) as [fn|] eqn:Hc.
  { destruct (new_View_hit name opts w fn Hv Hc) as (stats & path & ->). reflexivity. }
  destruct (require (module_of_ext (view_ext name opts))) as [m|e] eqn:Hr.
  - destruct (__express m) as [fn|] eqn:Hx.
    + destruct (new_View_loaded name opts w m fn Hv Hc Hr Hx) as (stats & path & ->).
      reflexivity.
    + rewrite (new_View_no_engine name opts w m Hv Hc Hr Hx). reflexivity.
  - rewrite (new_View_require_throws name opts w e Hv Hc Hr). reflexivity.
Qed.

(** C10.  The constructor writes to the engine cache that the options
    refer to, and to nothing else in the store: when it loads the engine
    from a module, the cache gets the engine under the extension; in every
    other case the store is as before.  The entry is then there for the
    caller, and a view constructed later from options that refer to the same
    cache, for the same extension, gets that engine without loading a
    module. *)
Theorem engines_cache_updated (name : string) (opts : Options) (w : World) :
  let ext := view_ext name opts in
  let cache := opt_engines opts in
  let w' := fst (new_View name opts w) in
  heap w' = match engine_loaded name opts w with
            | Some fn => <[cache := <[ext := fn]> (cache_of w cache)]> (heap w)
            | None => heap w
            end
  /\ (forall other, other <> cache -> cache_of w' other = cache_of w other)
  /\ (forall key, key <> ext -> cache_of w' cache !! key = cache_of w cache !! key)
  /\ (forall fn, engine_loaded name opts w = Some fn ->
        cache_of w' cache !! ext = Some fn
        /\ forall name2 opts2,
             opt_engines opts2 = cache ->
             view_ext name2 opts2 = ext ->
             validation_fails name2 opts2 = false ->
             required (trace (fst (new_View name2 opts2 w'))) = required (trace w')
             /\ exists v, snd (new_View name2 opts2 w') = Ret v
                          /\ v_engine v = Some fn).
Proof.
  intros ext cache w'. pose proof (new_View_heap name opts w) as Hh.
  fold w' ext cache in Hh.
  split; [exact Hh|].
  assert (forall fn, engine_loaded name opts w = Some fn ->
                     cache_of w' cache = <[ext := fn]> (cache_of w cache)) as Hcache.
  { intros fn Hl. unfold cache_of at 1. rewrite Hh, Hl, lookup_insert_eq. reflexivity. }
  split; [|split].
  - intros other Hne. unfold cache_of. rewrite Hh.
    destruct (engine_loaded name opts w); [|reflexivity].
    now rewrite lookup_insert_ne by congruence.
  - intros key Hne. destruct (engine_loaded name opts w) as [fn|] eqn:Hl.
    + rewrite (Hcache fn eq_refl). now rewrite lookup_insert_ne by congruence.
    + unfold cache_of. rewrite Hh. reflexivity.
  - intros fn Hl. rewrite (Hcache fn Hl).
    split; [apply lookup_insert_eq|].
    intros name2 opts2 Ec Ee Hv2.
    assert (cache_of w' (opt_engines opts2) !! view_ext name2 opts2 = Some fn) as Hc2
      by (rewrite Ec, Ee, (Hcache fn Hl); apply lookup_insert_eq).
    destruct (new_View_hit name2 opts2 w' fn Hv2 Hc2) as (stats & path & ->).
    cbn [fst snd add_trace trace].
    rewrite required_app, required_stats, app_nil_r.
    split; [reflexivity|]. eexists; split; reflexivity.
Qed.

End Constructor.
End ViewFacts.

(** ** View.render *)

Module RenderFacts.
Import Render.

Section Render.
Context {Engine RenderOptions Value : Type}.

Abbreviation State := (@State Engine RenderOptions Value).
Abbreviation Args := (list (@Arg Value)).

(** *** Copying the arguments *)

Lemma copy_prefix (arguments : Args) (k : nat) :
  (k <= length arguments)%nat ->
  foldl (fun args i => <[i := default Undefined (arguments !! i)]> args)
        (replicate (length arguments) Undefined) (seq 0 k)
  = (take k arguments ++ replicate (length arguments - k) Undefined)%list.
Proof.
  induction k as [|k IH]; intros Hk.
  - simpl. now rewrite Nat.sub_0_r.
  - rewrite seq_S, foldl_app, IH by lia. cbn [foldl Nat.add].
    destruct (lookup_lt_is_Some_2 arguments k) as [x Hx]; [lia|].
    rewrite Hx. cbn [default from_option id].
    rewrite (take_S_r _ _ _ Hx), <- app_assoc.
    replace (length arguments - k)%nat with (S (length arguments - S k)) by lia.
    cbn [replicate].
    rewrite insert_app_r_alt by (rewrite length_take; lia).
    rewrite length_take, Nat.min_l, Nat.sub_diag by lia. reflexivity.
Qed.

(** The copy made by the loop is the argument list itself. *)
Lemma copy_arguments_id (arguments : Args) : copy_arguments arguments = arguments.
Proof.
  unfold copy_arguments. rewrite copy_prefix by lia.
  rewrite Nat.sub_diag, firstn_all. apply app_nil_r.
Qed.

(** *** What [onRender] does, by the value of [sync] *)

Lemma onRender_sync (arguments : Args) (st : State) :
  sync st = true ->
  onRender arguments st = nextTick ThisOnRender arguments st.
Proof. intros Hs. unfold onRender. rewrite Hs, copy_arguments_id. reflexivity. Qed.

Lemma onRender_async (arguments : Args) (st : State) :
  sync st = false ->
  onRender arguments st = apply_callback ThisOnRender arguments st.
Proof. intros Hs. unfold onRender. rewrite Hs. reflexivity. Qed.

(** *** The invariant of a run *)

Lemma Inv_render_enter (engine : Engine) (path : option string) (options : RenderOptions) :
  Inv (render_enter engine path options : State).
Proof. split; [reflexivity | discriminate | reflexivity | constructor]. Qed.

Lemma Inv_onRender (arguments : Args) (st : State) :
  Inv st -> Inv (onRender arguments st).
Proof.
  intros HI. destruct (sync st) eqn:Hs.
  - rewrite onRender_sync by exact Hs. destruct HI as [Hc Hr Hn Ha].
    split; cbn [nextTick phase sync invocations]; assumption.
  - rewrite onRender_async by exact Hs. destruct HI as [Hc Hr Hn Ha].
    assert (phase st <> Calling) as Hp by (intros Hp; rewrite Hc in Hs by exact Hp; discriminate).
    split; cbn [apply_callback phase sync invocations]; try assumption.
    + intros Hp'. contradiction.
    + apply Forall_app. split; [exact Ha|].
      constructor; [|constructor]. cbn [inv_during_render]. unfold on_stack.
      destruct (phase st); [contradiction | reflexivity | reflexivity].
Qed.

Lemma Inv_step (ev : Ev) (st st' : State) :
  Inv st -> step ev st = Some st' -> Inv st'.
Proof.
  intros HI. destruct ev as [a| | |]; cbn [step].
  - intros [= <-]. now apply Inv_onRender.
  - destruct (on_stack st); [|discriminate]. intros [= <-].
    destruct HI as [Hc Hr Hn Ha].
    split; [discriminate | reflexivity | discriminate | exact Ha].
  - destruct (on_stack st); [|discriminate]. intros [= <-].
    destruct HI as [Hc Hr Hn Ha].
    split; [discriminate | discriminate | discriminate | exact Ha].
  - destruct (on_stack st) eqn:Hon; [discriminate|].
    destruct (ticks st) as [|[cntx args] rest]; [discriminate|]. intros [= <-].
    destruct HI as [Hc Hr Hn Ha].
    assert (phase st <> Calling) as Hp
      by (intros Hp; unfold on_stack in Hon; rewrite Hp in Hon; discriminate).
    split; cbn [apply_callback phase sync invocations]; try assumption.
    + intros Hp'. contradiction.
    + apply Forall_app. split; [exact Ha|].
      constructor; [|constructor]. cbn [inv_during_render]. unfold on_stack in *.
      cbn [phase]. exact Hon.
Qed.

Lemma Inv_run (evs : list Ev) :
  forall st st' : State, Inv st -> run evs st = Some st' -> Inv st'.
Proof.
  induction evs as [|ev evs IH]; intros st st' HI; cbn [run].
  - intros [= <-]. exact HI.
  - destruct (step ev st) as [st1|] eqn:E; [|discriminate]. cbn [mbind option_bind].
    apply IH. eapply Inv_step; [exact HI | exact E].
Qed.

(** *** Nothing is lost and nothing is made up *)

Lemma conservation_step (ev : Ev) (st st' : State) :
  step ev st = Some st' ->
  delivered st' ++ pending st'
  ≡ₚ delivered st ++ pending st
      ++ match ev with EngineCallsBack a => [a] | _ => [] end.
Proof.
  unfold delivered, pending. destruct ev as [a| | |]; cbn [step].
  - intros [= <-]. unfold onRender. rewrite copy_arguments_id.
    destruct (sync st); cbn [negb nextTick apply_callback invocations ticks].
    + rewrite map_app. reflexivity.
    + rewrite map_app. cbn [map inv_args]. rewrite <- !app_assoc.
      apply Permutation_app_head, Permutation_app_comm.
  - destruct (on_stack st); [|discriminate]. intros [= <-].
    cbn. now rewrite app_nil_r.
  - destruct (on_stack st); [|discriminate]. intros [= <-].
    cbn. now rewrite app_nil_r.
  - destruct (on_stack st); [discriminate|].
    destruct (ticks st) as [|[cntx args] rest]; [discriminate|]. intros [= <-].
    cbn [apply_callback invocations ticks map snd inv_args]. rewrite map_app.
    cbn [map inv_args]. rewrite app_nil_r, <- app_assoc. reflexivity.
Qed.

Lemma conservation_run (evs : list Ev) :
  forall st st' : State,
    run evs st = Some st' ->
    delivered st' ++ pending st' ≡ₚ delivered st ++ pending st ++ engine_arguments evs.
Proof.
  induction evs as [|ev evs IH]; intros st st'; cbn [run].
  - intros [= <-]. unfold engine_arguments. cbn. now rewrite app_nil_r.
  - destruct (step ev st) as [st1|] eqn:E; [|discriminate]. cbn [mbind option_bind].
    intros Hrun. rewrite (IH _ _ Hrun).
    rewrite app_assoc, (conservation_step _ _ _ E), <- !app_assoc.
    do 2 apply Permutation_app_head.
    unfold engine_arguments. now destruct ev.
Qed.

Lemma run_app (evs1 evs2 : list Ev) (st : State) :
  run (evs1 ++ evs2) st = run evs1 st ≫= run evs2.
Proof.
  revert st; induction evs1 as [|ev evs1 IH]; intros st; [reflexivity|].
  cbn [app run]. destruct (step ev st) as [st1|]; [apply IH | reflexivity].
Qed.

Lemma with_queue_same (st : State) : with_queue (ticks st) (invocations st) st = st.
Proof. now destruct st. Qed.

(** Callbacks made while [sync] is [true] line up in the queue. *)
Lemma run_callbacks_sync (l : list Args) :
  forall st : State,
    sync st = true ->
    run (map EngineCallsBack l) st
    = Some (with_queue (ticks st ++ map (pair ThisOnRender) l) (invocations st) st).
Proof.
  induction l as [|a l IH]; intros st Hs.
  - cbn. now rewrite app_nil_r, with_queue_same.
  - cbn [map run step]. cbn [mbind option_bind]. rewrite onRender_sync by exact Hs.
    rewrite IH by exact Hs. cbn [nextTick ticks invocations].
    unfold with_queue. cbn. now rewrite <- app_assoc.
Qed.

(** With the stack empty, as many ticks as the queue is long empty it, in
    its order. *)
Lemma run_ticks (q : list (ThisArg * Args)) :
  forall st : State,
    on_stack st = false -> ticks st = q ->
    run (replicate (length q) Tick) st
    = Some (with_queue []
              (invocations st
                 ++ map (fun t => {| inv_this := fst t; inv_args := snd t;
                                     inv_during_render := false |}) q) st).
Proof.
  induction q as [|[cntx args] q IH]; intros st Hon Hq.
  - cbn. rewrite app_nil_r, <- Hq. now rewrite with_queue_same.
  - cbn [length replicate run step]. rewrite Hon, Hq. cbn [mbind option_bind].
    rewrite IH; [|exact Hon|reflexivity].
    unfold apply_callback, with_queue, on_stack in *. cbn in *. rewrite Hon.
    now rewrite <- app_assoc.
Qed.

(** Callbacks made while [sync] is [false] are invoked one after the
    other, on the spot. *)
Lemma run_callbacks_async (l : list Args) :
  forall st : State,
    sync st = false ->
    run (map EngineCallsBack l) st
    = Some (with_queue (ticks st)
              (invocations st
                 ++ map (fun a => {| inv_this := ThisOnRender; inv_args := a;
                                     inv_during_render := on_stack st |}) l) st).
Proof.
  induction l as [|a l IH]; intros st Hs.
  - cbn. now rewrite app_nil_r, with_queue_same.
  - cbn [map run step]. cbn [mbind option_bind]. rewrite onRender_async by exact Hs.
    rewrite IH by exact Hs. unfold apply_callback, with_queue, on_stack. cbn.
    now rewrite <- app_assoc.
Qed.

(** C1.  [render] never invokes the user callback synchronously, whatever
    the engine does.  In every run: while the engine call has not returned
    the callback has not been invoked at all, and no invocation ever happens
    with [render] on the stack; a call of [onRender] made before the engine
    call returns only queues a tick that holds a copy of the arguments, equal
    to them, and the tick, when node runs it, invokes the callback with
    exactly those arguments; the return of the engine call sets [sync] to
    [false] and takes [render] off the stack, leaving the queue as it is; a
    call of [onRender] made after the engine call returned invokes the
    callback at once with the arguments of the engine; and the argument
    lists delivered or still queued are those the engine passed, none lost,
    none added.  Put together: when the engine calls back some times, then
    returns, then calls back again, the later callbacks have been delivered,
    in order, and the earlier ones are queued, in order; the ticks then
    deliver these. *)
Theorem render_callback_async (engine : Engine) (path : option string)
    (options : RenderOptions) :
  let st0 := render_enter engine path options in
  let made arguments := {| inv_this := ThisOnRender; inv_args := arguments;
                           inv_during_render := false |} in
  (forall view : @View.ViewObj Engine,
     View.v_engine view = Some engine -> View.v_path view = path ->
     render view options = Ret st0)
  /\ (forall (evs : list Ev) (st : State),
        run evs st0 = Some st ->
        Forall (fun i => inv_during_render i = false) (invocations st)
        /\ (phase st = Calling -> invocations st = [])
        /\ delivered st ++ pending st ≡ₚ engine_arguments evs
        /\ (forall arguments : Args,
              phase st = Calling ->
              copy_arguments arguments = arguments
              /\ invocations (onRender arguments st) = invocations st
              /\ ticks (onRender arguments st)
                 = (ticks st ++ [(ThisOnRender, arguments)])%list)
        /\ (phase st = Calling ->
            step EngineReturns st = Some (render_leave st)
            /\ run (evs ++ [EngineReturns]) st0 = Some (render_leave st)
            /\ phase (render_leave st) = Returned
            /\ sync (render_leave st) = false
            /\ on_stack (render_leave st) = false
            /\ ticks (render_leave st) = ticks st
            /\ invocations (render_leave st) = invocations st)
        /\ (forall arguments : Args,
              phase st = Returned ->
              invocations (onRender arguments st)
              = (invocations st ++ [made arguments])%list
              /\ ticks (onRender arguments st) = ticks st)
        /\ (forall cntx args rest,
              ticks st = (cntx, args) :: rest -> on_stack st = false ->
              exists st', step Tick st = Some st'
                          /\ invocations st'
                             = (invocations st
                                  ++ [{| inv_this := cntx; inv_args := args;
                                         inv_during_render := false |}])%list
                          /\ ticks st' = rest))
  /\ (forall during after : list Args,
        run (map EngineCallsBack during
               ++ EngineReturns :: map EngineCallsBack after) st0
        = Some {| engine_called := (engine, path, options); sync := false;
                  phase := Returned;
                  ticks := map (pair ThisOnRender) during;
                  invocations := map made after |}
        /\ run ((map EngineCallsBack during
                   ++ EngineReturns :: map EngineCallsBack after)
                  ++ replicate (length during) Tick) st0
           = Some {| engine_called := (engine, path, options); sync := false;
                     phase := Returned; ticks := [];
                     invocations := map made (after ++ during) |}).
Proof.
  intros st0 made. split.
  { intros view He Hp. unfold render. rewrite He, Hp. reflexivity. }
  split.
  - intros evs st Hrun.
    pose proof (Inv_run evs st0 st (Inv_render_enter engine path options) Hrun)
      as [Hc Hr Hn Ha].
    split; [exact Ha|]. split; [exact Hn|].
    split; [exact (conservation_run evs st0 st Hrun)|].
    split; [|split; [|split]].
    + intros arguments Hp. split; [apply copy_arguments_id|].
      rewrite onRender_sync by auto. split; reflexivity.
    + intros Hp.
      assert (step EngineReturns st = Some (render_leave st)) as Hstep
        by (cbn [step]; unfold on_stack; now rewrite Hp).
      split; [exact Hstep|]. split.
      { rewrite run_app, Hrun. cbn [mbind option_bind run]. rewrite Hstep.
        reflexivity. }
      repeat split.
    + intros arguments Hp. rewrite onRender_async by auto.
      cbn [apply_callback invocations ticks]. unfold on_stack. rewrite Hp.
      split; reflexivity.
    + intros cntx args rest Ht Hon. cbn [step]. rewrite Hon, Ht.
      eexists. split; [reflexivity|].
      cbn [apply_callback invocations ticks]. unfold on_stack in *.
      cbn [phase]. rewrite Hon. split; reflexivity.
  - intros during after.
    assert (run (map EngineCallsBack during
                   ++ EngineReturns :: map EngineCallsBack after) st0
            = Some {| engine_called := (engine, path, options); sync := false;
                      phase := Returned;
                      ticks := map (pair ThisOnRender) during;
                      invocations := map made after |}) as Hfirst.
    { rewrite run_app, run_callbacks_sync by reflexivity.
      cbn [mbind option_bind run step on_stack with_queue phase st0 render_enter].
      cbn [mbind option_bind]. rewrite run_callbacks_async by reflexivity.
      reflexivity. }
    split; [exact Hfirst|].
    rewrite run_app, Hfirst. cbn [mbind option_bind].
    rewrite <- (length_map (pair ThisOnRender) during).
    rewrite (run_ticks (map (pair ThisOnRender) during)) by reflexivity.
    unfold with_queue. cbn. now rewrite map_app, map_map.
Qed.

End Render.
End RenderFacts.

(** ** Concrete runs *)

Module Runs.
Import Standin.

(** *** Strings *)

Example indexOf_first : JS.indexOf "text/html;q=0.5" ";" 0 = 9.
Proof. reflexivity. Qed.

Example indexOf_none : JS.indexOf "text/html;q=0.5" ";" 10 = -1.
Proof. reflexivity. Qed.

Example lastIndexOf_before : JS.lastIndexOf "a;b;c=d" ";" 4 = 3.
Proof. reflexivity. Qed.

Example slice_range : JS.slice "text/html;q=0.5" 0 9 = "text/html".
Proof. reflexivity. Qed.

Example trim_both : JS.trim "  a b  " = "a b".
Proof. reflexivity. Qed.

Example split_commas : JS.split "," "a, b,,c" = ["a"; " b"; EmptyString; "c"].
Proof. reflexivity. Qed.

(** *** acceptParams *)

Example acceptParams_plain :
  shown (Utils.acceptParams_counted "text/html") = Some ("text/html", Int 1, [], 0%nat).
Proof. vm_compute. reflexivity. Qed.

Example acceptParams_parameters :
  shown (Utils.acceptParams_counted "text/html; q=0.5; level=1;x;charset = utf-8 ; foo")
  = Some ("text/html", Parsed "0.5", [("charset", "utf-8"); ("level", "1")], 6%nat).
Proof. vm_compute. reflexivity. Qed.

Example acceptParams_skips :
  shown (Utils.acceptParams_counted "a/b;x;y;z=1=2;;q;")
  = Some ("a/b", Int 1, [("z", "1=2")], 3%nat).
Proof. vm_compute. reflexivity. Qed.

Example normalizeType_extension :
  Utils.nt_value <$> Utils.normalizeType "html" = Some "text/html".
Proof. reflexivity. Qed.

(** *** compileTrust *)

Example compileTrust_hops :
  match Utils.compileTrust (Utils.TNum (Int 2)) with
  | Ret p => (p "10.0.0.1" (Int 0), p "10.0.0.1" (Int 1), p "10.0.0.1" (Int 2))
  | Throw _ => (false, false, false)
  end = (true, true, false).
Proof. reflexivity. Qed.

Example compileTrust_list :
  match Utils.compileTrust (Utils.TStr "10.0.0.1, 10.0.0.2") with
  | Ret p => (p "10.0.0.2" (Int 0), p "10.0.0.3" (Int 0))
  | Throw _ => (false, false)
  end = (true, false).
Proof. vm_compute. reflexivity. Qed.

(** *** The view *)

Lemma toy_join_nonempty (segments : list string) : toy_join segments <> EmptyString.
Proof.
  unfold toy_join. destruct (toy_join_segments segments); discriminate.
Qed.

Lemma toy_extname_dot (n : string) :
  toy_extname n = EmptyString \/ exists r, toy_extname n = String "." r.
Proof.
  unfold toy_extname. destruct (JS.sfind_last "." (toy_basename n)) as [[|k]|];
    [left; reflexivity | right; eexists; reflexivity | left; reflexivity].
Qed.

Example resolve_index_file :
  View.resolve ".pug" "/shared" "about.pug" empty_world
  = ({| View.heap := ∅;
        View.trace := [View.EvStat "/shared/about.pug";
                       View.EvStat "/shared/about/index.pug"] |},
     Ret (Some "/shared/about/index.pug")).
Proof. reflexivity. Qed.

(** The second root resolves the view; both roots are consulted, in order. *)
Lemma lookup_first_root_witness :
  (forall segments, toy_join segments <> EmptyString)
  /\ View.lookup ".pug" (View.RootDirs ["/views"; "/shared"; "/unused"]) "about.pug"
       empty_world
     = ({| View.heap := ∅;
           View.trace := [View.EvStat "/views/about.pug";
                          View.EvStat "/views/about/index.pug";
                          View.EvStat "/shared/about.pug";
                          View.EvStat "/shared/about/index.pug"] |},
        Ret (Some "/shared/about/index.pug")).
Proof.
  split; [exact toy_join_nonempty|].
  destruct (@ViewFacts.lookup_first_root string path_lib fs_lib ".pug" "about.pug"
              (View.RootDirs ["/views"; "/shared"; "/unused"]) empty_world
              toy_join_nonempty) as [E _].
  rewrite E. reflexivity.
Defined.

(** The first view of an application loads the engine of its extension. *)
Lemma engine_bound_lazily_witness :
  (forall n, toy_extname n = EmptyString \/ exists r, toy_extname n = String "." r)
  /\ View.validation_fails "home" options = false
  /\ View.view_ext "home" options = ".pug"
  /\ View.required (View.trace (fst (View.new_View toy_require "home" options empty_world)))
     = ["pug"]
  /\ exists v, snd (View.new_View toy_require "home" options empty_world) = Ret v
               /\ View.v_engine v = Some "pug.__express".
Proof.
  split; [exact toy_extname_dot|]. split; [reflexivity|]. split; [reflexivity|].
  destruct (@ViewFacts.engine_bound_lazily string path_lib fs_lib toy_require
              "home" options empty_world toy_extname_dot eq_refl) as [_ Hcase].
  change (View.cache_of empty_world (View.opt_engines options)
            !! View.view_ext "home" options) with (@None string) in Hcase.
  destruct Hcase as [Hreq Hload].
  change (toy_require (View.module_of_ext (View.view_ext "home" options)))
    with (Ret {| View.__express := View.ExportFunction "pug.__express" |}) in Hload.
  cbn [View.__express] in Hload.
  destruct Hload as (v & Hv & He & _).
  split; [exact Hreq | exists v; split; [exact Hv | exact He]].
Defined.

Example new_View_cached :
  let w := View.store_engine 0%nat ".pug" "cached" empty_world in
  View.new_View toy_require "home" options w
  = ({| View.heap := {[ 0%nat := {[ ".pug" := "cached" ]} ]};
        View.trace := [View.EvStat "/views/home.pug"] |},
     Ret {| View.v_defaultEngine := Some "pug"; View.v_ext := ".pug";
            View.v_name := "home";
            View.v_root := View.RootDirs ["/views"; "/shared"];
            View.v_engine := Some "cached";
            View.v_path := Some "/views/home.pug" |}).
Proof. vm_compute. reflexivity. Qed.

Example new_View_no_default_engine :
  View.new_View toy_require "home"
    {| View.opt_defaultEngine := None; View.opt_engines := 0%nat;
       View.opt_root := View.RootDir "/views" |} empty_world
  = (empty_world,
     Throw (Error "No default engine was specified and no extension was provided.")).
Proof. reflexivity. Qed.

Example new_View_broken_module :
  snd (View.new_View toy_require "home.broken" options empty_world)
  = Throw (Error ("Module " +:+ JS.dquote +:+ "broken" +:+ JS.dquote
                    +:+ " does not provide a view engine.")).
Proof. reflexivity. Qed.

(** *** Rendering *)

(** An engine that calls back at once: the callback runs in a tick. *)
Example render_sync_engine :
  Render.run [Render.EngineCallsBack [Render.Undefined; Render.Val 7%nat];
              Render.EngineReturns; Render.Tick] start
  = Some {| Render.engine_called := ("pug.__express", Some "/views/home.pug", tt);
            Render.sync := false; Render.phase := Render.Returned;
            Render.ticks := [];
            Render.invocations :=
              [{| Render.inv_this := Render.ThisOnRender;
                  Render.inv_args := [Render.Undefined; Render.Val 7%nat];
                  Render.inv_during_render := false |}] |}.
Proof. reflexivity. Qed.

(** An engine that calls back later: the callback runs at once. *)
Example render_async_engine :
  Render.invocations
    <$> Render.run [Render.EngineReturns; Render.EngineCallsBack [Render.Val 1%nat]] start
  = Some [{| Render.inv_this := Render.ThisOnRender;
             Render.inv_args := [Render.Val 1%nat];
             Render.inv_during_render := false |}].
Proof. reflexivity. Qed.

(** No tick runs while the engine call is on the stack. *)
Example render_no_tick_during_call :
  Render.run [Render.EngineCallsBack [Render.Val 1%nat]; Render.Tick] start = None.
Proof. reflexivity. Qed.

End Runs.

(** * More properties *)

(** ** More about the utilities *)

Module UtilsMore.
Import JS JSFacts Utils UtilsFacts.

(** *** Trimming *)

Lemma trimStart_clean (s : string) : clean_start (trimStart s).
Proof.
  induction s as [|c s IH]; simpl; [exact I|].
  destruct (is_space c) eqn:E; [exact IH | exact E].
Qed.

Lemma trimStart_id (s : string) : clean_start s -> trimStart s = s.
Proof. destruct s as [|c s]; simpl; [reflexivity|]. now intros ->. Qed.

Lemma trimEnd_clean (s : string) : clean_start s -> clean_start (trimEnd s).
Proof.
  destruct s as [|c s]; simpl; [auto|]. intros Hc.
  destruct (trimEnd s); [rewrite Hc|]; exact Hc.
Qed.

Lemma trimEnd_idem (s : string) : trimEnd (trimEnd s) = trimEnd s.
Proof.
  induction s as [|c s IH]; simpl; [reflexivity|].
  destruct (trimEnd s) as [|d t] eqn:E.
  - destruct (is_space c) eqn:Ec; simpl; [reflexivity|]. now rewrite Ec.
  - change (trimEnd (String c (String d t)))
      with (match trimEnd (String d t) with
            | EmptyString => if is_space c then EmptyString else String c EmptyString
            | u => String c u
            end).
    rewrite IH. reflexivity.
Qed.

Lemma trim_idem (s : string) : trim (trim s) = trim s.
Proof.
  unfold trim.
  rewrite (trimStart_id (trimEnd (trimStart s)))
    by apply trimEnd_clean, trimStart_clean.
  apply trimEnd_idem.
Qed.

Lemma sfind_cons_None (c a : ascii) (s : string) :
  sfind c (String a s) = None <-> Ascii.eqb a c = false /\ sfind c s = None.
Proof.
  simpl. destruct (Ascii.eqb a c); [split; [discriminate | intros [? _]; discriminate]|].
  destruct (sfind c s); simpl; split; try discriminate; auto.
  intros [_ ?]; discriminate.
Qed.

Lemma sfind_trimStart (c : ascii) (s : string) :
  sfind c s = None -> sfind c (trimStart s) = None.
Proof.
  induction s as [|a s IH]; [auto|].
  intros E. pose proof E as E'. apply sfind_cons_None in E' as [Ea Es].
  cbn [trimStart]. destruct (is_space a); [now apply IH | exact E].
Qed.

Lemma sfind_trimEnd (c : ascii) (s : string) :
  sfind c s = None -> sfind c (trimEnd s) = None.
Proof.
  induction s as [|a s IH]; [auto|].
  intros E. apply sfind_cons_None in E as [Ea Es]. specialize (IH Es).
  cbn [trimEnd]. destruct (trimEnd s) as [|d t].
  - destruct (is_space a); [reflexivity|]. now apply sfind_cons_None.
  - now apply sfind_cons_None.
Qed.

Lemma sfind_trim (c : ascii) (s : string) :
  sfind c s = None -> sfind c (trim s) = None.
Proof. intros E. apply sfind_trimEnd, sfind_trimStart, E. Qed.

Section AcceptParams.
Context `{NumLib}.

Lemma acceptParams_spec (str : string) :
  acceptParams str = Some (result_acceptParams str).
Proof.
  destruct (acceptParams_counted_spec str) as (n & En & _).
  unfold acceptParams. rewrite En. reflexivity.
Qed.

(** *** Looking a parameter up *)

Lemma last_with_key_cons (key : string) (kv : string * string)
    (pairs : list (string * string)) :
  last_with_key key (kv :: pairs)
  = match last_with_key key pairs with
    | Some v => Some v
    | None => if String.eqb (fst kv) key then Some (snd kv) else None
    end.
Proof.
  unfold last_with_key. simpl.
  destruct (String.eqb (fst kv) key); [|now destruct (last _)].
  rewrite last_cons_some. now destruct (last _).
Qed.

Lemma object_set_lookup (k v key : string) (m : gmap string string) :
  object_set k v m !! key
  = if String.eqb k "__proto__" then m !! key
    else if String.eqb k key then Some v else m !! key.
Proof.
  unfold object_set. destruct (String.eqb k "__proto__"); [reflexivity|].
  destruct (String.eqb_spec k key) as [->|Hne];
    [apply lookup_insert_eq | now apply lookup_insert_ne].
Qed.

Lemma stored_params_lookup (pairs : list (string * string)) :
  forall (start : gmap string string) (key : string),
    stored_params start pairs !! key
    = if String.eqb key "q" || String.eqb key "__proto__" then start !! key
      else match last_with_key key pairs with
           | Some v => Some v
           | None => start !! key
           end.
Proof.
  induction pairs as [|kv pairs IH]; intros start key.
  - unfold stored_params, last_with_key. simpl.
    now destruct (String.eqb key "q" || String.eqb key "__proto__").
  - rewrite stored_params_cons, IH, last_with_key_cons. unfold is_q.
    assert ((if String.eqb (fst kv) "q" then start
             else object_set (fst kv) (snd kv) start) !! key
            = if String.eqb key "q" || String.eqb key "__proto__" then start !! key
              else if String.eqb (fst kv) key then Some (snd kv) else start !! key)
      as Hstart.
    { destruct (String.eqb_spec (fst kv) "q") as [Eq|Eq].
      - destruct (String.eqb_spec key "q") as [->|Hq]; [reflexivity|].
        destruct (String.eqb key "__proto__"); [reflexivity|]. cbn [orb].
        destruct (String.eqb_spec (fst kv) key) as [E|E]; [congruence | reflexivity].
      - rewrite object_set_lookup.
        destruct (String.eqb_spec (fst kv) "__proto__") as [Ep|Ep].
        + destruct (String.eqb_spec key "q") as [->|Hq]; [reflexivity|].
          destruct (String.eqb_spec key "__proto__") as [->|Hp]; [reflexivity|].
          cbn [orb]. destruct (String.eqb_spec (fst kv) key) as [E|E];
            [congruence | reflexivity].
        + destruct (String.eqb_spec (fst kv) key) as [E|E].
          * rewrite <- E.
            destruct (String.eqb_spec (fst kv) "q"); [contradiction|].
            destruct (String.eqb_spec (fst kv) "__proto__"); [contradiction|].
            reflexivity.
          * now destruct (String.eqb key "q" || String.eqb key "__proto__"). }
    rewrite Hstart.
    destruct (String.eqb key "q" || String.eqb key "__proto__"); [reflexivity|].
    destruct (last_with_key key pairs); [reflexivity|].
    now destruct (String.eqb (fst kv) key).
Qed.

(** X1.  The result of [acceptParams], read by key: the parameter stored
    under a key is the value of the last pair with that key; the keys [q]
    and [__proto__] are never stored; the last pair with key [q] gives the
    quality instead, which is [1] when there is none; a key with no pair is
    absent. *)
Theorem acceptParams_params_lookup (str key : string) :
  exists r, acceptParams str = Some r
            /\ params r !! "q" = None
            /\ params r !! "__proto__" = None
            /\ params r !! key
               = (if String.eqb key "q" || String.eqb key "__proto__" then None
                  else last_with_key key (spec_pairs str))
            /\ quality r
               = match last_with_key "q" (spec_pairs str) with
                 | Some v => parseFloat v
                 | None => num_of_Z 1
                 end.
Proof.
  exists (result_acceptParams str). split; [apply acceptParams_spec|].
  unfold result_acceptParams. cbn [params quality]. rewrite !stored_params_lookup.
  split; [reflexivity|]. split; [reflexivity|]. split.
  - destruct (String.eqb key "q" || String.eqb key "__proto__"); [reflexivity|].
    now destruct (last_with_key key (spec_pairs str)).
  - unfold spec_quality, last_with_key, is_q.
    now destruct (last (List.filter _ (spec_pairs str))).
Qed.

(** *** Texts without parameters *)

Lemma omap_none {A B} (f : A -> option B) (l : list A) :
  Forall (fun x => f x = None) l -> omap f l = [].
Proof.
  induction 1 as [|x l Hx _ IH]; [reflexivity|]. simpl. now rewrite Hx.
Qed.

Lemma spec_pairs_none (str : string) :
  sfind ";" str = None \/ sfind "=" str = None -> spec_pairs str = [].
Proof.
  unfold spec_pairs. intros [E|E].
  - rewrite (split_no_sep _ _ E). reflexivity.
  - apply omap_none.
    pose proof (split_pieces_without "=" ";" str E) as Hall.
    destruct (split ";" str) as [|first pieces]; [constructor|].
    inversion Hall as [|? ? _ Hrest]; subst. cbn [tail].
    eapply Forall_impl; [exact Hrest|].
    intros piece Hp. unfold parameter_pair. now rewrite Hp.
Qed.

(** X2.  A text with no [;], or with no [=], has quality 1 and no parameters. *)
Theorem acceptParams_no_parameters (str : string) :
  sfind ";" str = None \/ sfind "=" str = None ->
  acceptParams str
  = Some {| value := trim (before_first_semicolon str);
            quality := num_of_Z 1;
            params := ∅ |}.
Proof.
  intros Hno. rewrite acceptParams_spec. unfold result_acceptParams.
  rewrite (spec_pairs_none str Hno). reflexivity.
Qed.

(** *** The shape of the result *)

Lemma parameter_pair_trimmed (piece : string) (kv : string * string) :
  parameter_pair piece = Some kv -> trimmed (fst kv) /\ trimmed (snd kv).
Proof.
  unfold parameter_pair. destruct (sfind "=" piece) as [k|]; [|discriminate].
  simpl. intros [= <-]. split; apply trim_idem.
Qed.

Lemma stored_params_trimmed (pairs : list (string * string)) :
  forall start : gmap string string,
    Forall (fun kv => trimmed (fst kv) /\ trimmed (snd kv)) pairs ->
    map_Forall (fun k v => trimmed k /\ trimmed v) start ->
    map_Forall (fun k v => trimmed k /\ trimmed v) (stored_params start pairs).
Proof.
  induction pairs as [|kv pairs IH]; intros start Hall Hstart; [exact Hstart|].
  inversion Hall as [|? ? Hkv Hrest]; subst.
  rewrite stored_params_cons. apply IH; [exact Hrest|].
  destruct (is_q kv); [exact Hstart|]. unfold object_set.
  destruct (String.eqb (fst kv) "__proto__"); [exact Hstart|].
  apply map_Forall_insert_2; [exact Hkv | exact Hstart].
Qed.

Lemma spec_pairs_trimmed (str : string) :
  Forall (fun kv => trimmed (fst kv) /\ trimmed (snd kv)) (spec_pairs str).
Proof.
  unfold spec_pairs. apply Forall_forall. intros kv Hin.
  apply list_elem_of_omap in Hin as (piece & _ & Hp).
  now apply parameter_pair_trimmed in Hp.
Qed.

(** X3.  The value holds no [;]; the value, the keys and the values of the
    parameters carry no white space at either end. *)
Theorem acceptParams_trimmed (str : string) :
  exists r, acceptParams str = Some r
            /\ sfind ";" (value r) = None
            /\ trimmed (value r)
            /\ map_Forall (fun k v => trimmed k /\ trimmed v) (params r).
Proof.
  exists (result_acceptParams str). split; [apply acceptParams_spec|].
  unfold result_acceptParams. cbn [value params].
  split; [|split].
  - apply sfind_trim. unfold before_first_semicolon.
    destruct (sfind ";" str) as [k|] eqn:E; [|exact E].
    apply (sfind_stake_before _ _ k); [exact E | lia].
  - apply trim_idem.
  - apply stored_params_trimmed; [apply spec_pairs_trimmed | apply map_Forall_empty].
Qed.

(** *** normalizeType, normalizeTypes *)

Context `{MimeLib}.

(** [normalizeType] always returns: what it makes of the result of
    [acceptParams] for a type with a [/], of the type itself for one
    without. *)
Lemma normalizeType_total (type : string) :
  exists n, normalizeType type = Some n
            /\ (indexOf type "/" 0 = -1 -> n = of_extension type)
            /\ (indexOf type "/" 0 <> -1 ->
                exists r, acceptParams type = Some r /\ n = of_acceptParams r).
Proof.
  unfold normalizeType.
  destruct (Z.eqb_spec (indexOf type "/" 0) (-1)) as [E|E]; cbn [negb].
  - exists (of_extension type). split; [reflexivity|]. split; [reflexivity|].
    intros Hne. contradiction.
  - rewrite acceptParams_spec. cbn [mbind option_bind].
    exists (of_acceptParams (result_acceptParams type)).
    split; [reflexivity|]. split; [intros He; contradiction|].
    intros _. exists (result_acceptParams type). split; reflexivity.
Qed.

(** X4.  [normalizeTypes] always returns, one result per type and in the
    order of the types, each what [normalizeType] returns for its type: for
    a type with a [/] the value, quality and parameters that [acceptParams]
    returns for it; for a type without one its mime type, or
    [application/octet-stream], with no quality and no parameters. *)
Theorem normalizeTypes_total (types : list string) :
  exists l,
    normalizeTypes types = Some l
    /\ length l = length types
    /\ forall i type,
         types !! i = Some type ->
         exists n, l !! i = Some n
                   /\ normalizeType type = Some n
                   /\ (indexOf type "/" 0 = -1 -> n = of_extension type)
                   /\ (indexOf type "/" 0 <> -1 ->
                       exists r, acceptParams type = Some r
                                 /\ n = of_acceptParams r).
Proof.
  assert (is_Some (normalizeTypes types)) as [l Hl].
  { unfold normalizeTypes. apply mapM_is_Some, Forall_forall. intros type _.
    destruct (normalizeType_total type) as (n & Hn & _).
    unfold compose. rewrite Hn. eauto. }
  exists l. split; [exact Hl|].
  unfold normalizeTypes in Hl. apply mapM_Some in Hl.
  split; [symmetry; eapply Forall2_length; exact Hl|].
  intros i type Hi.
  destruct (Forall2_lookup_l _ _ _ _ _ Hl Hi) as (n & Hn & Hnt).
  exists n. split; [exact Hn|]. split; [exact Hnt|].
  destruct (normalizeType_total type) as (n' & Hn' & Hcases).
  rewrite Hnt in Hn'. injection Hn' as <-. exact Hcases.
Qed.

End AcceptParams.

Section Settings.
Context `{NumLib} `{ETagLib} `{QueryLib} `{!ProxyAddrLib} `{HttpLib} `{ContentTypeLib}.

(** X5.  A string that is not one of the two recognized words, letter for
    letter, is rejected, and the message of the [TypeError] ends with the
    string itself. *)
Theorem compile_unknown_string_message (s : string) :
  s <> "weak" -> s <> "strong" -> s <> "simple" -> s <> "extended" ->
  compileETag (SStr s)
  = Throw (TypeError ("unknown value for etag function: " +:+ s))
  /\ compileQueryParser (SStr s)
     = Throw (TypeError ("unknown value for query parser function: " +:+ s)).
Proof.
  intros Hw Hs Hsi He. rewrite compileETag_cases, compileQueryParser_cases.
  apply String.eqb_neq in Hw, Hs, Hsi, He. rewrite Hw, Hs, Hsi, He.
  split; reflexivity.
Qed.

(** *** compileTrust *)

(** X6.  The list settings of [compileTrust]: an array goes to
    [proxyaddr.compile] as it is, [false] as the empty array, and a string
    behaves as the array of its entries; [compileTrust] throws only when
    [proxyaddr.compile] does, so never for a function, [true] or a number. *)
Theorem compileTrust_lists (val : TrustSetting) :
  (forall l, compileTrust (TArr l) = proxyaddr_compile l)
  /\ compileTrust (TBool false) = proxyaddr_compile []
  /\ (forall s, compileTrust (TStr s) = compileTrust (TArr (trust_entries s)))
  /\ throws (compileTrust val)
     = match val with
       | TFun _ | TBool true | TNum _ => false
       | TBool false => throws (proxyaddr_compile [])
       | TStr s => throws (proxyaddr_compile (trust_entries s))
       | TArr l => throws (proxyaddr_compile l)
       end.
Proof.
  split; [reflexivity|]. split; [reflexivity|]. split; [reflexivity|].
  destruct val as [[|]|s|n|l|f]; reflexivity.
Qed.

Lemma split_length (c : ascii) (s : string) :
  length (split c s) = S (count_char c s).
Proof.
  induction s as [|a s IH]; [reflexivity|]. cbn [split count_char].
  destruct (Ascii.eqb a c); [simpl; now rewrite IH|].
  destruct (split c s) as [|h t]; [discriminate IH | exact IH].
Qed.

Lemma split_pieces_free (c : ascii) (s : string) :
  Forall (fun piece => sfind c piece = None) (split c s).
Proof.
  induction s as [|a s IH]; [repeat constructor|]. cbn [split].
  destruct (Ascii.eqb a c) eqn:E; [constructor; [reflexivity | exact IH]|].
  destruct (split c s) as [|h t]; [repeat constructor; simpl; now rewrite E|].
  inversion IH as [|? ? Hh Ht]; subst. constructor; [|exact Ht].
  simpl. now rewrite E, Hh.
Qed.

(** X7.  The entries of a comma-separated trust setting: one more than there
    are commas, none holds a comma, none has white space at either end; a
    string without a comma is one entry. *)
Theorem trust_entries_shape (s : string) :
  length (trust_entries s) = S (count_char "," s)
  /\ Forall (fun entry => sfind "," entry = None /\ trimmed entry) (trust_entries s)
  /\ (sfind "," s = None -> trust_entries s = [trim s]).
Proof.
  unfold trust_entries. split; [|split].
  - rewrite length_map. apply split_length.
  - apply Forall_map. eapply Forall_impl; [apply split_pieces_free|].
    intros piece Hp. cbn beta. split; [now apply sfind_trim | apply trim_idem].
  - intros E. now rewrite (split_no_sep _ _ E).
Qed.

(** *** setCharset *)

Lemma setCharset_empty_charset (type : string) :
  setCharset type EmptyString = Ret type.
Proof. unfold setCharset. now destruct (truthy type). Qed.

Lemma setCharset_nonempty (type charset : string) :
  type <> EmptyString -> charset <> EmptyString ->
  setCharset type charset
  = match contentType_parse type with
    | Throw e => Throw e
    | Ret parsed => contentType_format (set_charset_parameter charset parsed)
    end.
Proof.
  intros Ht Hc. unfold setCharset.
  destruct type; [contradiction|]. destruct charset; [contradiction|]. reflexivity.
Qed.

(** X8.  An empty type or an empty charset gives the type back, and then
    nothing is parsed, so nothing throws; with both non-empty, a type that
    does not parse makes [setCharset] throw, and the charset that was there
    is replaced, the other parameters and the type are kept. *)
Theorem setCharset_cases (type charset : string) :
  setCharset EmptyString charset = Ret EmptyString
  /\ setCharset type EmptyString = Ret type
  /\ (forall e, type <> EmptyString -> charset <> EmptyString ->
        contentType_parse type = Throw e -> setCharset type charset = Throw e)
  /\ (forall parsed, type <> EmptyString -> charset <> EmptyString ->
        contentType_parse type = Ret parsed ->
        exists parsed',
          setCharset type charset = contentType_format parsed'
          /\ ct_type parsed' = ct_type parsed
          /\ ct_parameters parsed' !! "charset" = Some charset
          /\ forall key, key <> "charset" ->
                ct_parameters parsed' !! key = ct_parameters parsed !! key).
Proof.
  split; [reflexivity|]. split; [apply setCharset_empty_charset|]. split.
  - intros e Ht Hc Hp. rewrite setCharset_nonempty, Hp by assumption. reflexivity.
  - intros parsed Ht Hc Hp. exists (set_charset_parameter charset parsed).
    rewrite setCharset_nonempty, Hp by assumption.
    unfold set_charset_parameter. cbn [ct_type ct_parameters].
    split; [reflexivity|]. split; [reflexivity|]. split; [apply lookup_insert_eq|].
    intros key Hk. now rewrite lookup_insert_ne.
Qed.

Lemma set_charset_twice (c1 c2 : string) (parsed : ParsedContentType) :
  set_charset_parameter c2 (set_charset_parameter c1 parsed)
  = set_charset_parameter c2 parsed.
Proof.
  unfold set_charset_parameter. cbn [ct_type ct_parameters].
  now rewrite insert_insert_eq.
Qed.

(** X9.  The last charset wins.  When the text that [setCharset] returned
    parses back to what was formatted, setting another charset on it gives
    what setting that charset on the first type gives. *)
Theorem setCharset_last_wins (type c1 c2 text : string) (parsed : ParsedContentType) :
  c2 <> EmptyString -> text <> EmptyString ->
  contentType_parse type = Ret parsed ->
  setCharset type c1 = Ret text ->
  contentType_parse text = Ret (set_charset_parameter c1 parsed) ->
  setCharset text c2 = setCharset type c2.
Proof.
  intros Hc2 Htext Hparse Hset Hback.
  destruct (String.eqb_spec c1 EmptyString) as [->|Hc1].
  { rewrite setCharset_empty_charset in Hset. now injection Hset as ->. }
  assert (type <> EmptyString) as Htype.
  { intros ->. cbn in Hset. injection Hset as <-. contradiction. }
  rewrite (setCharset_nonempty text c2 Htext Hc2).
  rewrite (setCharset_nonempty type c2 Htype Hc2).
  rewrite Hback, Hparse, set_charset_twice. reflexivity.
Qed.

(** *** methods *)

Lemma lower_char_not_upper (c : ascii) : is_upper (lower_char c) = false.
Proof. destruct c as [[] [] [] [] [] [] [] []]; reflexivity. Qed.

Lemma lower_char_fixed (c : ascii) : is_upper c = false -> lower_char c = c.
Proof. unfold lower_char. now intros ->. Qed.

Lemma toLowerCase_length (s : string) :
  String.length (toLowerCase s) = String.length s.
Proof. induction s as [|c s IH]; [reflexivity|]. simpl. now rewrite IH. Qed.

Lemma toLowerCase_no_upper (s : string) (k : nat) (c : ascii) :
  String.get k (toLowerCase s) = Some c -> is_upper c = false.
Proof.
  revert k; induction s as [|a s IH]; intros k; simpl; [discriminate|].
  destruct k as [|k]; [intros [= <-]; apply lower_char_not_upper | apply IH].
Qed.

Lemma toLowerCase_idem (s : string) : toLowerCase (toLowerCase s) = toLowerCase s.
Proof.
  induction s as [|c s IH]; [reflexivity|]. simpl. rewrite IH.
  now rewrite (lower_char_fixed (lower_char c)) by apply lower_char_not_upper.
Qed.

(** X10.  [methods] has one entry for each of node's [METHODS], in the same
    order; each is the lower-case form of its method, of the same length,
    holds no capital letter and is its own lower-case form. *)
Theorem methods_lowercase :
  length methods = length METHODS
  /\ (forall i, methods !! i = toLowerCase <$> METHODS !! i)
  /\ Forall (fun m => toLowerCase m = m
                     /\ forall k c, String.get k m = Some c -> is_upper c = false)
            methods
  /\ Forall2 (fun m M => String.length m = String.length M) methods METHODS.
Proof.
  unfold methods. split; [apply length_map|]. split; [intros i; apply list_lookup_fmap|].
  split.
  - apply Forall_map, Forall_forall. intros M _. cbn beta.
    split; [apply toLowerCase_idem | apply toLowerCase_no_upper].
  - apply Forall2_fmap_l, Forall_Forall2_diag, Forall_forall.
    intros M _. apply toLowerCase_length.
Qed.

End Settings.
End UtilsMore.

(** ** More about the view module *)

Module ViewMore.
Import View ViewFacts.

Section Lookup.
Context {Engine : Type} `{PathLib} `{FsLib}.

Abbreviation World := (@World Engine).

Lemma stats_until_length (paths : list string) :
  (length (stats_until paths) <= length paths)%nat.
Proof.
  induction paths as [|p ps IH]; simpl; [lia|].
  destruct (is_regular_file p); simpl; lia.
Qed.

Lemma stats_until_subset (paths : list string) (q : string) :
  q ∈ stats_until paths -> q ∈ paths.
Proof.
  induction paths as [|p ps IH]; simpl; [auto|].
  intros [->|Hin]%elem_of_cons; [left|].
  right. destruct (is_regular_file p); [now apply elem_of_nil in Hin | auto].
Qed.

Lemma find_regular (paths : list string) (q : string) :
  List.find is_regular_file paths = Some q ->
  is_regular_file q = true /\ q ∈ paths.
Proof.
  intros Hf. apply List.find_some in Hf as [Hin Hr].
  split; [exact Hr | now apply list_elem_of_In].
Qed.

(** The loop over the roots, whatever the world it runs in: the paths it
    stats and the path it returns depend on the file system only. *)
Lemma lookup_loop_uniform (ext name : string) (roots : list string) :
  forall path : option string,
    exists stats p,
      (forall w : World,
         lookup_loop ext name roots path w = (add_trace (map EvStat stats) w, Ret p))
      /\ (length stats <= 2 * length roots)%nat
      /\ Forall (fun q => exists r, r ∈ roots /\ q ∈ root_candidates ext name r) stats
      /\ (forall q, p = Some q ->
            path = Some q
            \/ (is_regular_file q = true
                /\ exists r, r ∈ roots /\ q ∈ root_candidates ext name r)).
Proof.
  induction roots as [|r rs IH]; intros path.
  - exists [], path. split; [|split; [simpl; lia|split; [constructor | auto]]].
    intros w. cbn [lookup_loop map]. unfold mret. now rewrite add_trace_nil.
  - destruct (path_falsy path) eqn:Hp.
    + set (cands := root_candidates ext name r).
      destruct (IH (List.find is_regular_file cands)) as (stats & p & Hrun & Hlen & Hin & Hres).
      exists (stats_until cands ++ stats)%list, p. split; [|split; [|split]].
      * intros w. cbn [lookup_loop]. rewrite Hp. unfold mbnd. rewrite resolve_run.
        fold (root_candidates ext name r). fold cands.
        rewrite Hrun, add_trace_app, <- map_app. reflexivity.
      * rewrite length_app. pose proof (stats_until_length cands) as Hc.
        change (length cands) with 2%nat in Hc. cbn [length]. lia.
      * apply Forall_app. split.
        -- apply Forall_forall. intros q Hq. exists r. split; [left|].
           now apply stats_until_subset.
        -- eapply Forall_impl; [exact Hin|]. intros q (r' & Hr' & Hq).
           exists r'. split; [now right | exact Hq].
      * intros q Hq. right. destruct (Hres q Hq) as [Hfound|(Hreg & r' & Hr' & Hc)].
        -- apply find_regular in Hfound as [Hreg Hc].
           split; [exact Hreg|]. exists r. split; [left | exact Hc].
        -- split; [exact Hreg|]. exists r'. split; [now right | exact Hc].
    + exists [], path. split; [|split; [simpl; lia|split; [constructor | auto]]].
      intros w. cbn [lookup_loop map]. rewrite Hp. unfold mret. now rewrite add_trace_nil.
Qed.

(** X11.  [lookup] never throws and changes nothing in the store; all it does
    is stat, at most two paths for each root, each a candidate of one of the
    roots, and the same paths in every world; with no root it stats nothing
    and returns [undefined]. *)
Theorem lookup_effects (ext name : string) (root : Root) :
  exists stats p,
    (forall w : World,
       lookup ext root name w = (add_trace (map EvStat stats) w, Ret p))
    /\ (length stats <= 2 * length (concat_root root))%nat
    /\ Forall (fun q => exists r, r ∈ concat_root root /\ q ∈ root_candidates ext name r)
              stats
    /\ (concat_root root = [] -> stats = [] /\ p = None).
Proof.
  destruct (lookup_loop_uniform ext name (concat_root root) None)
    as (stats & p & Hrun & Hlen & Hin & Hres).
  exists stats, p. split; [exact Hrun|]. split; [exact Hlen|]. split; [exact Hin|].
  intros E. rewrite E in Hlen, Hres. split.
  - destruct stats; [reflexivity | simpl in Hlen; lia].
  - destruct p as [q|]; [|reflexivity].
    destruct (Hres q eq_refl) as [?|(_ & r & Hr & _)]; [discriminate|].
    now apply elem_of_nil in Hr.
Qed.

(** X12.  A path that [lookup] returns is a regular file and is one of the two
    candidates of one of the roots. *)
Theorem lookup_sound (ext name : string) (root : Root) (w w' : World) (q : string) :
  lookup ext root name w = (w', Ret (Some q)) ->
  is_regular_file q = true
  /\ exists r, r ∈ concat_root root /\ q ∈ root_candidates ext name r.
Proof.
  intros Hl.
  destruct (lookup_loop_uniform ext name (concat_root root) None)
    as (stats & p & Hrun & _ & _ & Hres).
  unfold lookup in Hl. rewrite Hrun in Hl. injection Hl as _ Hp.
  destruct (Hres q Hp) as [?|Hq]; [discriminate | exact Hq].
Qed.

End Lookup.
Section Constructor.
Context {Engine : Type} `{PathLib} `{FsLib} (require : @Require Engine).

Abbreviation World := (@View.World Engine).
Abbreviation new_View := (@View.new_View Engine _ _ require).

(** The constructor once its first check has passed, with the outcome of
    the lookup given. *)
Lemma new_View_outcome (name : string) (opts : Options) (w : World)
    (stats : list string) (p : option string) :
  validation_fails name opts = false ->
  (forall w0 : World,
     lookup (view_ext name opts) (opt_root opts) (view_fileName name opts) w0
     = (add_trace (map EvStat stats) w0, Ret p)) ->
  new_View name opts w
  = match cache_of w (opt_engines opts) !! view_ext name opts with
    | Some fn =>
        (add_trace (map EvStat stats) w, Ret (built name opts (Some fn) p))
    | None =>
        match require (module_of_ext (view_ext name opts)) with
        | Throw e =>
            (add_trace [EvRequire (module_of_ext (view_ext name opts))] w, Throw e)
        | Ret m =>
            match __express m with
            | ExportOther =>
                (add_trace [EvRequire (module_of_ext (view_ext name opts))] w,
                 Throw (Error ("Module " +:+ JS.dquote
                                 +:+ module_of_ext (view_ext name opts) +:+ JS.dquote
                                 +:+ " does not provide a view engine.")))
            | ExportFunction fn =>
                (add_trace (map EvStat stats)
                   (store_engine (opt_engines opts) (view_ext name opts) fn
                      (add_trace [EvRequire (module_of_ext (view_ext name opts))] w)),
                 Ret (built name opts (Some fn) p))
            end
        end
    end.
Proof.
  intros Hv Hl.
  destruct (cache_of w (opt_engines opts) !! view_ext name opts) as [fn|] eqn:Hc.
  - rewrite new_View_valid by exact Hv.
    unfold mbnd at 1. unfold read_engine at 1. rewrite Hc.
    unfold mbnd at 1. unfold mret at 1.
    unfold mbnd at 1. unfold read_engine at 1. rewrite Hc.
    unfold mbnd. rewrite Hl. reflexivity.
  - destruct (require (module_of_ext (view_ext name opts))) as [m|e] eqn:Hr.
    + destruct (__express m) as [fn|] eqn:Hx.
      * rewrite new_View_valid by exact Hv.
        unfold mbnd at 1. unfold read_engine at 1. rewrite Hc.
        unfold mbnd at 1. unfold mbnd at 1. unfold do_require, emit. unfold mbnd at 1.
        rewrite Hr. unfold mret at 1. rewrite Hx. unfold write_engine.
        unfold mbnd at 1. unfold read_engine.
        set (w1 := add_trace [EvRequire (module_of_ext (view_ext name opts))] w).
        fold (add_trace [EvRequire (module_of_ext (view_ext name opts))] w). fold w1.
        fold (store_engine (opt_engines opts) (view_ext name opts) fn w1).
        rewrite cache_of_store_engine, lookup_insert_eq.
        unfold mbnd. rewrite Hl. reflexivity.
      * now apply (new_View_no_engine require name opts w m).
    + now apply new_View_require_throws.
Qed.

Lemma cache_of_add_trace (evs : list Event) (w : World) (r : ref) :
  cache_of (add_trace evs w) r = cache_of w r.
Proof. reflexivity. Qed.

Lemma stated_app (evs1 evs2 : list Event) :
  stated (evs1 ++ evs2) = (stated evs1 ++ stated evs2)%list.
Proof. unfold stated. apply omap_app. Qed.

Lemma stated_stats (stats : list string) : stated (map EvStat stats) = stats.
Proof. induction stats as [|p ps IH]; [reflexivity|]. simpl. now f_equal. Qed.

(** X13.  What the constructor does to the world, in order: it requires at
    most one module, the one of the extension, and only then stats; when it
    throws it has stat'ed no path. *)
Theorem new_View_effects (name : string) (opts : Options) (w : World) :
  exists reqs stats,
    trace (fst (new_View name opts w))
    = (trace w ++ map EvRequire reqs ++ map EvStat stats)%list
    /\ (reqs = [] \/ reqs = [module_of_ext (view_ext name opts)])
    /\ (throws (snd (new_View name opts w)) = true -> stats = []).
Proof.
  destruct (validation_fails name opts) eqn:Hv.
  { rewrite new_View_invalid by exact Hv. exists [], []. cbn.
    rewrite app_nil_r. auto. }
  destruct (lookup_effects (Engine := Engine) (view_ext name opts)
              (view_fileName name opts) (opt_root opts))
    as (stats & p & Hl & _).
  rewrite (new_View_outcome name opts w stats p Hv Hl).
  destruct (cache_of w (opt_engines opts) !! view_ext name opts) as [fn|].
  { exists [], stats. cbn. split; [reflexivity|]. split; [auto | discriminate]. }
  destruct (require (module_of_ext (view_ext name opts))) as [m|e].
  - destruct (__express m) as [fn|].
    + exists [module_of_ext (view_ext name opts)], stats. cbn.
      rewrite <- app_assoc. split; [reflexivity|]. split; [auto | discriminate].
    + exists [module_of_ext (view_ext name opts)], []. cbn. auto.
  - exists [module_of_ext (view_ext name opts)], []. cbn. auto.
Qed.

(** X14.  The view that the constructor returns.  Its fields are the name, the
    root and the default engine of the call and the extension of the view;
    its engine is the entry that the cache has for that extension once the
    constructor is done; its path is the path that the first root resolves
    the file name to, the file name being the name, with the extension added
    when it has none, and [undefined] when no root resolves it.  (node's
    [join] never returns the empty string.) *)
Theorem new_View_fields (name : string) (opts : Options) (w : World) (v : ViewObj) :
  (forall segments, join segments <> EmptyString) ->
  snd (new_View name opts w) = Ret v ->
  v_name v = name
  /\ v_root v = opt_root opts
  /\ v_defaultEngine v = opt_defaultEngine opts
  /\ v_ext v = view_ext name opts
  /\ v_path v = first_resolved (view_ext name opts) (view_fileName name opts)
                  (concat_root (opt_root opts))
  /\ v_engine v
     = cache_of (fst (new_View name opts w)) (opt_engines opts) !! view_ext name opts
  /\ is_Some (v_engine v).
Proof.
  intros Hjoin.
  destruct (validation_fails name opts) eqn:Hv.
  { rewrite new_View_invalid by exact Hv. discriminate. }
  rewrite (new_View_outcome name opts w _ _ Hv
             (fun w0 => proj1 (lookup_first_root _ _ _ w0 Hjoin))).
  destruct (cache_of w (opt_engines opts) !! view_ext name opts) as [fn|] eqn:Hc.
  { cbn [fst snd]. intros [= <-]. cbn [built v_name v_root v_defaultEngine v_ext v_path v_engine].
    repeat (split; [reflexivity|]). split; [|eauto].
    now rewrite cache_of_add_trace, Hc. }
  destruct (require (module_of_ext (view_ext name opts))) as [m|e]; [|discriminate].
  destruct (__express m) as [fn|]; [|discriminate].
  cbn [fst snd]. intros [= <-]. cbn [built v_name v_root v_defaultEngine v_ext v_path v_engine].
  repeat (split; [reflexivity|]). split; [|eauto].
  now rewrite cache_of_add_trace, cache_of_store_engine, lookup_insert_eq.
Qed.

Lemma new_View_same_ext (name : string) (o1 o2 : Options) (w : World) :
  validation_fails name o1 = false -> validation_fails name o2 = false ->
  view_ext name o1 = view_ext name o2 ->
  view_fileName name o1 = view_fileName name o2 ->
  opt_engines o1 = opt_engines o2 -> opt_root o1 = opt_root o2 ->
  new_View name o2 w
  = (fst (new_View name o1 w),
     res_map (view_with_defaultEngine (opt_defaultEngine o2)) (snd (new_View name o1 w))).
Proof.
  intros Hv1 Hv2 Hext Hfile Heng Hroot.
  destruct (lookup_effects (Engine := Engine) (view_ext name o1)
              (view_fileName name o1) (opt_root o1))
    as (stats & p & Hl & _).
  rewrite (new_View_outcome name o1 w stats p Hv1 Hl).
  rewrite Hext, Hfile, Hroot in Hl.
  rewrite (new_View_outcome name o2 w stats p Hv2 Hl).
  rewrite <- Heng, <- Hext.
  assert (forall e : option Engine, built name o2 e p
                    = view_with_defaultEngine (opt_defaultEngine o2) (built name o1 e p))
    as Hb.
  { intros e. unfold built, view_with_defaultEngine.
    cbn [v_ext v_name v_root v_engine v_path]. now rewrite Hext, Hroot. }
  destruct (cache_of w (opt_engines o1) !! view_ext name o1) as [fn|].
  { cbn [fst snd res_map]. now rewrite Hb. }
  destruct (require (module_of_ext (view_ext name o1))) as [m|e]; [|reflexivity].
  destruct (__express m) as [fn|]; [|reflexivity].
  cbn [fst snd res_map]. now rewrite Hb.
Qed.

(** X15.  For a name with an extension the default engine does not matter:
    with another default engine the constructor does the same to the world
    and returns the same view, up to its [defaultEngine] field. *)
Theorem defaultEngine_ignored (name : string) (opts : Options) (d : option string)
    (w : World) :
  JS.truthy (extname name) = true ->
  new_View name (with_defaultEngine d opts) w
  = (fst (new_View name opts w),
     res_map (view_with_defaultEngine d) (snd (new_View name opts w))).
Proof.
  intros Hext.
  apply (new_View_same_ext name opts (with_defaultEngine d opts) w);
    unfold validation_fails, view_ext, view_fileName; rewrite ?Hext; reflexivity.
Qed.

(** X16.  The dot of the default engine is optional: for a name without an
    extension, the default engines [d] and ['.' + d] give the same
    extension, the same effects and the same view, up to its
    [defaultEngine] field. *)
Theorem defaultEngine_dot_optional (name d : string) (opts : Options) (w : World) :
  JS.truthy (extname name) = false ->
  d <> EmptyString -> JS.first_char d <> Some "."%char ->
  view_ext name (with_defaultEngine (Some d) opts) = "." +:+ d
  /\ new_View name (with_defaultEngine (Some ("." +:+ d)) opts) w
     = (fst (new_View name (with_defaultEngine (Some d) opts) w),
        res_map (view_with_defaultEngine (Some ("." +:+ d)))
                (snd (new_View name (with_defaultEngine (Some d) opts) w))).
Proof.
  intros Hext Hd Hdot.
  assert (ext_of_defaultEngine (Some d) = "." +:+ d) as E1.
  { unfold ext_of_defaultEngine. cbn [mbind option_bind default from_option id].
    destruct (JS.first_char d) as [c|] eqn:Ec; [|reflexivity].
    destruct (Ascii.eqb_spec c "."%char) as [->|Hne]; [contradiction|].
    destruct c as [[] [] [] [] [] [] [] []]; try reflexivity. contradiction. }
  assert (ext_of_defaultEngine (Some ("." +:+ d)) = "." +:+ d) as E2 by reflexivity.
  split.
  { unfold view_ext. rewrite Hext. exact E1. }
  apply (new_View_same_ext name (with_defaultEngine (Some d) opts)
           (with_defaultEngine (Some ("." +:+ d)) opts) w);
    unfold validation_fails, view_ext, view_fileName, with_defaultEngine;
    cbn [opt_defaultEngine opt_engines opt_root]; rewrite ?Hext; cbn [negb andb];
    rewrite ?E1, ?E2; try reflexivity.
  - destruct d; [contradiction | reflexivity].
  - unfold view_ext. cbn [opt_defaultEngine]. rewrite Hext. cbn [negb].
    now rewrite E1, E2.
Qed.

(** X17.  Constructing the same view again, right after it was constructed,
    returns the same view, loads no module and leaves the store as it is. *)
Theorem new_View_again (name : string) (opts : Options) (w : World) (v : ViewObj) :
  snd (new_View name opts w) = Ret v ->
  let w' := fst (new_View name opts w) in
  snd (new_View name opts w') = Ret v
  /\ heap (fst (new_View name opts w')) = heap w'
  /\ required (trace (fst (new_View name opts w'))) = required (trace w').
Proof.
  destruct (validation_fails name opts) eqn:Hv.
  { rewrite new_View_invalid by exact Hv. discriminate. }
  destruct (lookup_effects (Engine := Engine) (view_ext name opts)
              (view_fileName name opts) (opt_root opts))
    as (stats & p & Hl & _).
  rewrite (new_View_outcome name opts w stats p Hv Hl).
  assert (forall (w' : World) fn,
            cache_of w' (opt_engines opts) !! view_ext name opts = Some fn ->
            snd (new_View name opts w') = Ret (built name opts (Some fn) p)
            /\ heap (fst (new_View name opts w')) = heap w'
            /\ required (trace (fst (new_View name opts w'))) = required (trace w'))
    as Hagain.
  { intros w' fn Hc. rewrite (new_View_outcome name opts w' stats p Hv Hl), Hc.
    cbn [fst snd add_trace heap trace].
    now rewrite required_app, required_stats, app_nil_r. }
  destruct (cache_of w (opt_engines opts) !! view_ext name opts) as [fn|] eqn:Hc.
  { cbn [fst snd]. intros [= <-]. apply Hagain.
    now rewrite cache_of_add_trace. }
  destruct (require (module_of_ext (view_ext name opts))) as [m|e]; [|discriminate].
  destruct (__express m) as [fn|]; [|discriminate].
  cbn [fst snd]. intros [= <-]. apply Hagain.
  now rewrite cache_of_add_trace, cache_of_store_engine, lookup_insert_eq.
Qed.

End Constructor.
End ViewMore.

(** ** More about View.render *)

Module RenderMore.
Import Render RenderFacts.

Section Render.
Context {Engine RenderOptions Value : Type}.

Abbreviation State := (@State Engine RenderOptions Value).
Abbreviation Arg := (@Arg Value).

(** X18.  Callbacks that the engine makes before it returns are delivered once
    each, in the order they were made and with their arguments, by the
    ticks that follow; the same when the engine call ends by throwing. *)
Theorem render_delivers_in_order (engine : Engine) (path : option string)
    (options : RenderOptions) (l : list (list Arg)) :
  let st0 : State := render_enter engine path options in
  let made t := {| inv_this := ThisOnRender; inv_args := t;
                   inv_during_render := false |} in
  run (map EngineCallsBack l ++ EngineReturns :: replicate (length l) Tick) st0
  = Some {| engine_called := (engine, path, options); sync := false;
            phase := Returned; ticks := []; invocations := map made l |}
  /\ run (map EngineCallsBack l ++ EngineThrows :: replicate (length l) Tick) st0
     = Some {| engine_called := (engine, path, options); sync := true;
               phase := Threw; ticks := []; invocations := map made l |}.
Proof.
  intros st0 made.
  assert (forall st : State,
            on_stack st = false ->
            ticks st = map (pair ThisOnRender) l -> invocations st = [] ->
            run (replicate (length l) Tick) st = Some (with_queue [] (map made l) st))
    as Hticks.
  { intros st Hon Hq Hi.
    rewrite <- (length_map (pair ThisOnRender) l), (run_ticks _ st Hon Hq), Hi.
    now rewrite map_map. }
  split; rewrite run_app, run_callbacks_sync by reflexivity;
    cbn [mbind option_bind run step on_stack with_queue phase st0 render_enter];
    cbn [mbind option_bind]; rewrite Hticks; reflexivity.
Qed.

(** [sync] is [false] exactly when the engine call has returned. *)
Lemma sync_by_phase (evs : list Ev) :
  forall st st' : State,
    sync st = match phase st with Returned => false | _ => true end ->
    run evs st = Some st' ->
    sync st' = match phase st' with Returned => false | _ => true end.
Proof.
  induction evs as [|ev evs IH]; intros st st' Hs; cbn [run].
  - now intros [= <-].
  - destruct (step ev st) as [st1|] eqn:E; [|discriminate]. cbn [mbind option_bind].
    apply IH. destruct ev as [a| | |]; cbn [step] in E.
    + injection E as <-. unfold onRender.
      destruct (negb (sync st)); exact Hs.
    + destruct (on_stack st); [|discriminate]. now injection E as <-.
    + unfold on_stack in E. destruct (phase st) eqn:Hp; try discriminate.
      injection E as <-. exact Hs.
    + destruct (on_stack st); [discriminate|].
      destruct (ticks st) as [|[c a] rest]; [discriminate|]. injection E as <-.
      exact Hs.
Qed.

(** X19.  Once the engine call has thrown, [sync] stays [true]: a callback
    that the engine makes later is still put off to a tick, not invoked at
    once. *)
Theorem render_after_throw (engine : Engine) (path : option string)
    (options : RenderOptions) (evs : list Ev) (st : State) (arguments : list Arg) :
  run evs (render_enter engine path options) = Some st ->
  phase st = Threw ->
  sync st = true
  /\ invocations (onRender arguments st) = invocations st
  /\ ticks (onRender arguments st) = (ticks st ++ [(ThisOnRender, arguments)])%list.
Proof.
  intros Hrun Hp.
  pose proof (sync_by_phase evs (render_enter engine path options) st eq_refl Hrun)
    as Hs.
  rewrite Hp in Hs.
  split; [exact Hs|]. rewrite onRender_sync by exact Hs. split; reflexivity.
Qed.

End Render.

Section Constructed.
Context {Engine RenderOptions Value : Type} `{PathLib} `{FsLib}
        (require : @View.Require Engine).

(** X20.  A view that the constructor returned can be rendered: it has an
    engine, the one the cache holds for its extension, and [render] calls
    that engine with the path of the view and the options of the call. *)
Theorem constructed_view_renders (name : string) (opts : View.Options)
    (w : @View.World Engine) (v : View.ViewObj) (options : RenderOptions) :
  snd (View.new_View require name opts w) = Ret v ->
  exists fn,
    View.cache_of (fst (View.new_View require name opts w)) (View.opt_engines opts)
      !! View.v_ext v = Some fn
    /\ render (Value := Value) v options
       = Ret (render_enter fn (View.v_path v) options)
    /\ engine_called (render_enter (Value := Value) fn (View.v_path v) options)
       = (fn, View.v_path v, options).
Proof.
  destruct (View.validation_fails name opts) eqn:Hv.
  { rewrite ViewFacts.new_View_invalid by exact Hv. discriminate. }
  destruct (ViewMore.lookup_effects (Engine := Engine) (View.view_ext name opts)
              (View.view_fileName name opts) (View.opt_root opts))
    as (stats & p & Hl & _).
  rewrite (ViewMore.new_View_outcome require name opts w stats p Hv Hl).
  destruct (View.cache_of w (View.opt_engines opts) !! View.view_ext name opts)
    as [fn|] eqn:Hc.
  { cbn [fst snd]. intros [= <-]. exists fn. cbn [View.built View.v_ext].
    rewrite ViewMore.cache_of_add_trace. split; [exact Hc|]. split; reflexivity. }
  destruct (require _) as [m|e]; [|discriminate].
  destruct (View.__express m) as [fn|]; [|discriminate].
  cbn [fst snd]. intros [= <-]. exists fn. cbn [View.built View.v_ext].
  rewrite ViewMore.cache_of_add_trace, ViewFacts.cache_of_store_engine, lookup_insert_eq.
  split; [reflexivity|]. split; reflexivity.
Qed.

End Constructed.
End RenderMore.

(** ** More concrete runs *)

Module MoreRuns.
Import Standin.

Lemma acceptParams_no_parameters_witness :
  (JS.sfind ";" "text/html" = None \/ JS.sfind "=" "text/html" = None)
  /\ Utils.acceptParams "text/html"
     = Some {| Utils.value := "text/html"; Utils.quality := Int 1;
               Utils.params := ∅ |}.
Proof.
  split; [left; reflexivity|].
  exact (UtilsMore.acceptParams_no_parameters "text/html" (or_introl eq_refl)).
Defined.

Example acceptParams_last_pair_wins :
  (fun r => (map_to_list (Utils.params r), Utils.quality r))
    <$> Utils.acceptParams "a/b; k = 1 ;q=0.1; k=2; q=0.7"
  = Some ([("k", "2")], Parsed "0.7").
Proof. vm_compute. reflexivity. Qed.

Lemma compile_unknown_string_message_witness :
  Utils.compileETag (Utils.SStr "Weak")
  = Throw (TypeError "unknown value for etag function: Weak")
  /\ Utils.compileQueryParser (Utils.SStr "Weak")
     = Throw (TypeError "unknown value for query parser function: Weak").
Proof.
  apply (UtilsMore.compile_unknown_string_message "Weak"); discriminate.
Defined.

Lemma setCharset_last_wins_witness :
  Utils.setCharset "text/html" "utf-8" = Ret "text/html; charset=utf-8"
  /\ Utils.setCharset "text/html; charset=utf-8" "latin1"
     = Utils.setCharset "text/html" "latin1"
  /\ Utils.setCharset "text/html" "latin1" = Ret "text/html; charset=latin1".
Proof.
  split; [vm_compute; reflexivity|]. split; [|vm_compute; reflexivity].
  apply (UtilsMore.setCharset_last_wins "text/html" "utf-8" "latin1"
           "text/html; charset=utf-8"
           {| ct_type := "text/html"; ct_parameters := ∅ |});
    try discriminate; vm_compute; reflexivity.
Defined.

Example methods_of_standin : Utils.methods = ["get"; "post"; "m-search"; "delete"].
Proof. reflexivity. Qed.

Example trust_entries_of_list :
  Utils.trust_entries " 10.0.0.1 ,loopback, " = ["10.0.0.1"; "loopback"; EmptyString].
Proof. reflexivity. Qed.

(** *** The view *)

Lemma lookup_sound_witness :
  View.lookup ".pug" (View.RootDirs ["/views"; "/shared"]) "about.pug" empty_world
  = (found, Ret (Some "/shared/about/index.pug"))
  /\ View.is_regular_file "/shared/about/index.pug" = true
  /\ exists r, r ∈ ["/views"; "/shared"]
               /\ "/shared/about/index.pug" ∈ View.root_candidates ".pug" "about.pug" r.
Proof.
  assert (View.lookup ".pug" (View.RootDirs ["/views"; "/shared"]) "about.pug"
            empty_world = (found, Ret (Some "/shared/about/index.pug"))) as E
    by reflexivity.
  split; [exact E|].
  exact (@ViewMore.lookup_sound string path_lib fs_lib ".pug" "about.pug"
           (View.RootDirs ["/views"; "/shared"]) empty_world found
           "/shared/about/index.pug" E).
Defined.

Lemma new_View_home :
  snd (View.new_View toy_require "home" options empty_world) = Ret home_view.
Proof. vm_compute. reflexivity. Qed.

Lemma new_View_fields_witness :
  (forall segments, toy_join segments <> EmptyString)
  /\ snd (View.new_View toy_require "home" options empty_world) = Ret home_view
  /\ View.v_path home_view
     = View.first_resolved (View.view_ext "home" options)
         (View.view_fileName "home" options) (View.concat_root (View.opt_root options))
  /\ View.v_engine home_view
     = View.cache_of (fst (View.new_View toy_require "home" options empty_world))
         (View.opt_engines options) !! View.view_ext "home" options.
Proof.
  split; [exact Runs.toy_join_nonempty|]. split; [exact new_View_home|].
  destruct (@ViewMore.new_View_fields string path_lib fs_lib toy_require "home" options
              empty_world home_view Runs.toy_join_nonempty new_View_home)
    as (_ & _ & _ & _ & Hp & He & _).
  split; [exact Hp | exact He].
Defined.

Lemma defaultEngine_ignored_witness :
  JS.truthy (extname "home.pug") = true
  /\ View.new_View toy_require "home.pug"
       (View.with_defaultEngine (Some "ejs") options) empty_world
     = (fst (View.new_View toy_require "home.pug" options empty_world),
        View.res_map (View.view_with_defaultEngine (Some "ejs"))
          (snd (View.new_View toy_require "home.pug" options empty_world))).
Proof.
  split; [reflexivity|].
  exact (@ViewMore.defaultEngine_ignored string path_lib fs_lib toy_require "home.pug"
           options (Some "ejs") empty_world eq_refl).
Defined.

Lemma defaultEngine_dot_optional_witness :
  JS.truthy (extname "home") = false
  /\ View.view_ext "home" (View.with_defaultEngine (Some "pug") options) = ".pug"
  /\ View.new_View toy_require "home"
       (View.with_defaultEngine (Some ".pug") options) empty_world
     = (fst (View.new_View toy_require "home"
               (View.with_defaultEngine (Some "pug") options) empty_world),
        View.res_map (View.view_with_defaultEngine (Some ".pug"))
          (snd (View.new_View toy_require "home"
                  (View.with_defaultEngine (Some "pug") options) empty_world))).
Proof.
  split; [reflexivity|].
  apply (@ViewMore.defaultEngine_dot_optional string path_lib fs_lib toy_require
           "home" "pug" options empty_world); [reflexivity | discriminate | discriminate].
Defined.

Lemma new_View_again_witness :
  snd (View.new_View toy_require "home" options empty_world) = Ret home_view
  /\ snd (View.new_View toy_require "home" options
            (fst (View.new_View toy_require "home" options empty_world)))
     = Ret home_view
  /\ View.required
       (View.trace (fst (View.new_View toy_require "home" options
                           (fst (View.new_View toy_require "home" options empty_world)))))
     = ["pug"].
Proof.
  split; [exact new_View_home|].
  destruct (@ViewMore.new_View_again string path_lib fs_lib toy_require "home" options
              empty_world home_view new_View_home) as (Hv & _ & Hr).
  split; [exact Hv|]. rewrite Hr. reflexivity.
Defined.

(** *** Rendering *)

Lemma render_after_throw_witness :
  Render.run [Render.EngineThrows] start = Some thrown
  /\ Render.phase thrown = Render.Threw
  /\ Render.sync thrown = true
  /\ Render.invocations (Render.onRender [Render.Val 3%nat] thrown)
     = Render.invocations thrown
  /\ Render.ticks (Render.onRender [Render.Val 3%nat] thrown)
     = (Render.ticks thrown ++ [(Render.ThisOnRender, [Render.Val 3%nat])])%list.
Proof.
  split; [reflexivity|]. split; [reflexivity|].
  exact (@RenderMore.render_after_throw string unit nat "pug.__express"
           (Some "/views/home.pug") tt [Render.EngineThrows] thrown
           [Render.Val 3%nat] eq_refl eq_refl).
Defined.

Lemma constructed_view_renders_witness :
  snd (View.new_View toy_require "home" options empty_world) = Ret home_view
  /\ Render.render (RenderOptions := unit) (Value := nat) home_view tt = Ret start.
Proof.
  split; [exact new_View_home|].
  destruct (@RenderMore.constructed_view_renders string unit nat path_lib fs_lib
              toy_require "home" options empty_world home_view tt new_View_home)
    as (fn & Hc & Hr & _).
  rewrite Hr. vm_compute in Hc. injection Hc as <-. reflexivity.
Defined.

End MoreRuns.
